(** * AsciiRayTracer: the rendering pipeline of [main.cpp]

    A shallow embedding of the ray tracer's core ([Vec3], [Ray],
    [Sphere::intersect], [isCheckerboard], [getShade], [render],
    [displayBuffer]) and theorems about it.

    Modelling conventions.
    - A C++ [float] is an IEEE-754 binary32 number: [spec_float] of the
      Standard Library at precision 24 and exponent bound 128, every
      operation rounded to nearest-even on its own (no contraction, no
      extended precision).
    - A C++ [int] is a [Z]; an operation that would leave the 32-bit range,
      a float-to-int conversion of a value that has no [int], and a vector
      access out of range have no defined behaviour in C++ and make the
      model return [None].
    - A [std::vector] is a [list], read with [!!] and written with
      [<[i:=x]>] after the range check. *)

From Stdlib Require Import ZArith Bool Ascii String DecimalString.
From Stdlib Require Import Floats.SpecFloat.
From stdpp Require Import base option list.
From Stdlib Require Import Lia.

Local Open Scope Z_scope.

(** ** Binary32 arithmetic *)

Module F32.

Definition prec : Z := 24.
Definition emax : Z := 128.

Definition float : Type := spec_float.

Definition add : float -> float -> float := SFadd prec emax.
Definition sub : float -> float -> float := SFsub prec emax.
Definition mul : float -> float -> float := SFmul prec emax.
Definition div : float -> float -> float := SFdiv prec emax.
Definition sqrt : float -> float := SFsqrt prec emax.
Definition neg : float -> float := SFopp.
Definition ltb : float -> float -> bool := SFltb.
Definition leb : float -> float -> bool := SFleb.

(** [valid x]: [x] is one of the values a binary32 variable can hold. *)
Definition valid (x : float) : bool := valid_binary prec emax x.

Definition is_nan (x : float) : bool :=
  match x with S754_nan => true | _ => false end.

(** Conversion of an [int] to [float] (exact up to 2^24, rounded above). *)
Definition of_int (z : Z) : float := binary_normalize prec emax z 0 false.

Definition INT_MIN : Z := - 2 ^ 31.
Definition INT_MAX : Z := 2 ^ 31 - 1.
Definition int_ok (z : Z) : bool := (INT_MIN <=? z) && (z <=? INT_MAX).

(** The integer part of a finite float, rounded toward zero. *)
Definition truncZ (x : float) : option Z :=
  match x with
  | S754_zero _ => Some 0
  | S754_finite s m e => Some (cond_Zopp s (Z.shiftl (Zpos m) e))
  | _ => None
  end.

(** The largest integer not above a finite float. *)
Definition floorZ (x : float) : option Z :=
  match x with
  | S754_zero _ => Some 0
  | S754_finite s m e =>
      Some (if 0 <=? e then cond_Zopp s (Zpos m * 2 ^ e)
            else cond_Zopp s (Zpos m) / 2 ^ (- e))
  | _ => None
  end.

(** [static_cast<int>(x)]: truncation; undefined when the truncated value
    is not an [int] (NaN, infinity, out of range). *)
Definition to_int (x : float) : option Z :=
  match truncZ x with
  | Some z => if int_ok z then Some z else None
  | None => None
  end.

(** [std::floor] on [float]: zeros, infinities, NaN and floats without a
    fractional part are returned as they are. *)
Definition floor (x : float) : float :=
  match x with
  | S754_finite s m e =>
      if 0 <=? e then x
      else
        let z := cond_Zopp s (Zpos m) / 2 ^ (- e) in
        if z =? 0 then S754_zero s else of_int z
  | _ => x
  end.

Definition zero : float := of_int 0.
Definition one : float := of_int 1.
Definition two : float := of_int 2.

End F32.

Import F32.

(** ** [struct Vec3] *)

Record Vec3 : Type := mkVec3 { vx : float; vy : float; vz : float }.

Module Vec3Ops.

(** [Vec3::operator+] *)
Definition add (a v : Vec3) : Vec3 :=
  mkVec3 (F32.add (vx a) (vx v)) (F32.add (vy a) (vy v)) (F32.add (vz a) (vz v)).

(** [Vec3::operator-] *)
Definition sub (a v : Vec3) : Vec3 :=
  mkVec3 (F32.sub (vx a) (vx v)) (F32.sub (vy a) (vy v)) (F32.sub (vz a) (vz v)).

(** [Vec3::operator*(float)] *)
Definition scale (a : Vec3) (s : float) : Vec3 :=
  mkVec3 (F32.mul (vx a) s) (F32.mul (vy a) s) (F32.mul (vz a) s).

(** [Vec3::dot] *)
Definition dot (a v : Vec3) : float :=
  F32.add (F32.add (F32.mul (vx a) (vx v)) (F32.mul (vy a) (vy v)))
          (F32.mul (vz a) (vz v)).

(** The magnitude computed inside [Vec3::normalize]. *)
Definition mag (a : Vec3) : float :=
  F32.sqrt (F32.add (F32.add (F32.mul (vx a) (vx a)) (F32.mul (vy a) (vy a)))
                    (F32.mul (vz a) (vz a))).

(** [Vec3::normalize]: an unchecked division by the magnitude. *)
Definition normalize (a : Vec3) : Vec3 :=
  let m := mag a in
  mkVec3 (F32.div (vx a) m) (F32.div (vy a) m) (F32.div (vz a) m).

(** A vector is the zero vector when its three components are zeros
    (of either sign). *)
Definition is_zero_float (x : float) : bool :=
  match x with S754_zero _ => true | _ => false end.

Definition is_zero (a : Vec3) : bool :=
  is_zero_float (vx a) && is_zero_float (vy a) && is_zero_float (vz a).

End Vec3Ops.

(** A [Vec3] built from three [int] literals, as in [Vec3(0, 2, 3)]. *)
Definition vec3_of_ints (x y z : Z) : Vec3 :=
  mkVec3 (of_int x) (of_int y) (of_int z).

(** ** [struct Ray] *)

Record Ray : Type := mkRay { origin : Vec3; direction : Vec3 }.

(** The constructor [Ray::Ray]: the direction is stored normalized. *)
Definition Ray_new (o d : Vec3) : Ray := mkRay o (Vec3Ops.normalize d).

(** ** [struct Sphere] *)

Record Sphere : Type := mkSphere { center : Vec3; radius : float }.

(** The result of [Sphere::intersect] when it returns [true]: the values
    written to [t], [hitPoint] and [normal]. *)
Record Hit : Type := mkHit { hit_t : float; hit_point : Vec3; hit_normal : Vec3 }.

Definition discriminant (s : Sphere) (ray : Ray) : float :=
  let oc := Vec3Ops.sub (origin ray) (center s) in
  let a := Vec3Ops.dot (direction ray) (direction ray) in
  let b := F32.mul two (Vec3Ops.dot oc (direction ray)) in
  let c := F32.sub (Vec3Ops.dot oc oc) (F32.mul (radius s) (radius s)) in
  F32.sub (F32.mul b b) (F32.mul (F32.mul (of_int 4) a) c).

Definition near_root (s : Sphere) (ray : Ray) : float :=
  let oc := Vec3Ops.sub (origin ray) (center s) in
  let a := Vec3Ops.dot (direction ray) (direction ray) in
  let b := F32.mul two (Vec3Ops.dot oc (direction ray)) in
  F32.div (F32.sub (F32.neg b) (F32.sqrt (discriminant s ray))) (F32.mul two a).

(** [Sphere::intersect]: [None] is the [false] return. *)
Definition intersect (s : Sphere) (ray : Ray) : option Hit :=
  let oc := Vec3Ops.sub (origin ray) (center s) in
  let a := Vec3Ops.dot (direction ray) (direction ray) in
  let b := F32.mul two (Vec3Ops.dot oc (direction ray)) in
  let c := F32.sub (Vec3Ops.dot oc oc) (F32.mul (radius s) (radius s)) in
  let disc := F32.sub (F32.mul b b) (F32.mul (F32.mul (of_int 4) a) c) in
  if F32.ltb disc zero then None
  else
    let t := F32.div (F32.sub (F32.neg b) (F32.sqrt disc)) (F32.mul two a) in
    if F32.leb t zero then None
    else
      let hitPoint := Vec3Ops.add (origin ray) (Vec3Ops.scale (direction ray) t) in
      let normal := Vec3Ops.normalize (Vec3Ops.sub hitPoint (center s)) in
      Some (mkHit t hitPoint normal).

(** ** Checkerboard and shading *)

(** [isCheckerboard]: both conversions to [int] and the [int] addition
    must be defined; [%] is C++'s truncating remainder. *)
Definition isCheckerboard (point : Vec3) : option bool :=
  checkerX ← to_int (F32.floor (vx point));
  checkerZ ← to_int (F32.floor (vz point));
  if int_ok (checkerX + checkerZ)
  then Some (Z.rem (checkerX + checkerZ) 2 =? 0)
  else None.

Definition shades : string := " .:-=+*".

(** [shades.size() - 1] *)
Definition last_shade : Z := Z.of_nat (String.length shades) - 1.

(** [shades[index]] *)
Definition shade_at (index : Z) : option ascii :=
  if 0 <=? index then String.get (Z.to_nat index) shades else None.

(** The two clamping statements at the head of [getShade]. *)
Definition clamp01 (t : float) : float :=
  let t := if F32.ltb t zero then zero else t in
  if F32.ltb one t then one else t.

(** [getShade]: [index] is computed on both paths, before the choice. *)
Definition getShade (t : float) (reflective : bool) : option ascii :=
  let t := clamp01 t in
  i ← to_int (F32.mul t (of_int last_shade));
  let index := Z.min i last_shade in
  if reflective then shade_at index
  else
    b ← isCheckerboard (mkVec3 t zero zero);
    Some (if b : bool then "*"%char else " "%char).

(** ** [render] *)

Definition sphere : Sphere := mkSphere (vec3_of_ints 0 2 3) one.

Definition targetAspectRatio : float := F32.div (of_int 16) (of_int 9).

Definition aspectRatio (width height : Z) : float :=
  F32.div (of_int width) (of_int height).

(** [(adjustedWidth, adjustedHeight)] of [render]. *)
Definition adjusted (width height : Z) : option (Z * Z) :=
  adjustedHeight ← to_int (F32.div (of_int width) targetAspectRatio);
  if height <? adjustedHeight then
    adjustedWidth ← to_int (F32.mul (of_int height) targetAspectRatio);
    Some (adjustedWidth, height)
  else Some (width, adjustedHeight).

Definition view_u (width height adjustedWidth x : Z) : float :=
  F32.mul
    (F32.div (F32.sub (of_int x) (F32.div (of_int adjustedWidth) two))
             (of_int adjustedWidth))
    (aspectRatio width height).

Definition view_v (adjustedHeight y : Z) : float :=
  F32.div (F32.sub (F32.div (of_int adjustedHeight) two) (of_int y))
          (of_int adjustedHeight).

(** The vector [Vec3(u, v, 1)] handed to the [Ray] constructor. *)
Definition cameraDir (width height adjustedWidth adjustedHeight x y : Z) : Vec3 :=
  mkVec3 (view_u width height adjustedWidth x) (view_v adjustedHeight y) one.

Definition cameraRay (width height adjustedWidth adjustedHeight : Z)
    (camera : Vec3) (x y : Z) : Ray :=
  Ray_new camera (cameraDir width height adjustedWidth adjustedHeight x y).

(** [reflectionDir] and [reflectionRay] of the hit branch. *)
Definition reflectionDir (ray : Ray) (h : Hit) : Vec3 :=
  Vec3Ops.sub (direction ray)
    (Vec3Ops.scale (Vec3Ops.scale (hit_normal h) two)
                   (Vec3Ops.dot (direction ray) (hit_normal h))).

Definition reflectionRay (ray : Ray) (h : Hit) : Ray :=
  Ray_new (hit_point h) (reflectionDir ray h).

(** [floorDist] and [floorPoint] of the hit branch. *)
Definition hitFloorDist (ray : Ray) (h : Hit) : float :=
  F32.div (F32.neg (vy (hit_point h))) (vy (direction (reflectionRay ray h))).

Definition hitFloorPoint (ray : Ray) (h : Hit) : Vec3 :=
  Vec3Ops.add (hit_point h)
    (Vec3Ops.scale (direction (reflectionRay ray h)) (hitFloorDist ray h)).

(** [floorDist] and [floorPoint] of the miss branch. *)
Definition missFloorDist (camera : Vec3) (ray : Ray) : float :=
  F32.div (F32.neg (vy camera)) (vy (direction ray)).

Definition missFloorPoint (camera : Vec3) (ray : Ray) : Vec3 :=
  Vec3Ops.add camera (Vec3Ops.scale (direction ray) (missFloorDist camera ray)).

(** [newChar] for a camera ray: the [if]/[else] of the loop body. *)
Definition shadeRay (camera : Vec3) (ray : Ray) : option ascii :=
  match intersect sphere ray with
  | Some h =>
      if F32.ltb zero (hitFloorDist ray h) then
        b ← isCheckerboard (hitFloorPoint ray h);
        getShade one b
      else getShade (hit_t h) true
  | None =>
      if F32.ltb (vy (direction ray)) zero then
        b ← isCheckerboard (missFloorPoint camera ray);
        getShade one b
      else Some " "%char
  end.

(** [newChar] of cell [(x, y)]. *)
Definition cellChar (width height adjustedWidth adjustedHeight : Z)
    (camera : Vec3) (x y : Z) : option ascii :=
  shadeRay camera (cameraRay width height adjustedWidth adjustedHeight camera x y).

(** ** Vectors and loops *)

(** [y * width + x] in [int] arithmetic. *)
Definition cell_index (width x y : Z) : option Z :=
  if int_ok (y * width) && int_ok (y * width + x)
  then Some (y * width + x) else None.

(** [v[i]] read. *)
Definition vec_get {A : Type} (v : list A) (i : Z) : option A :=
  if 0 <=? i then v !! Z.to_nat i else None.

(** [v[i] = x] *)
Definition vec_set {A : Type} (v : list A) (i : Z) (x : A) : option (list A) :=
  if (0 <=? i) && (i <? Z.of_nat (length v))
  then Some (<[Z.to_nat i := x]> v) else None.

(** [n] iterations of a loop body, the counter starting at [i]. *)
Fixpoint for_loop {S : Type} (n : nat) (i : Z) (body : Z -> S -> option S)
    (s : S) : option S :=
  match n with
  | O => Some s
  | Datatypes.S n' =>
      match body i s with
      | Some s' => for_loop n' (i + 1) body s'
      | None => None
      end
  end.

(** [for (int i = 0; i < hi; i++) body] *)
Definition for_range {S : Type} (hi : Z) (body : Z -> S -> option S) (s : S)
    : option S :=
  for_loop (Z.to_nat hi) 0 body s.

(** The frame: the character buffer and the change flags. *)
Definition frame : Type := (list ascii * list bool)%type.

(** The body of the inner loop of [render]. *)
Definition render_cell (width height adjustedWidth adjustedHeight : Z)
    (camera : Vec3) (y x : Z) (fr : frame) : option frame :=
  let '(buffer, changed) := fr in
  newChar ← cellChar width height adjustedWidth adjustedHeight camera x y;
  i ← cell_index width x y;
  old ← vec_get buffer i;
  if Ascii.eqb newChar old then Some (buffer, changed)
  else
    buffer' ← vec_set buffer i newChar;
    changed' ← vec_set changed i true;
    Some (buffer', changed').

(** [std::fill(changed.begin(), changed.end(), false)] *)
Definition clear_flags (changed : list bool) : list bool :=
  replicate (length changed) false.

Definition render (width height : Z) (camera : Vec3) (fr : frame)
    : option frame :=
  '(adjustedWidth, adjustedHeight) ← adjusted width height;
  for_range adjustedHeight
    (fun y => for_range adjustedWidth
       (render_cell width height adjustedWidth adjustedHeight camera y))
    (fst fr, clear_flags (snd fr)).

(** ** [displayBuffer] *)

(** The text [printf] writes for ["\033[%d;%dH"]. *)
Definition dec (z : Z) : string := NilZero.string_of_int (Z.to_int z).

Definition cursor_to (row col : Z) : string :=
  (String "027" "[" ++ dec row ++ ";" ++ dec col ++ "H")%string.

(** The body of the inner loop of [displayBuffer]; [out] is the text
    written to the terminal so far. *)
Definition display_cell (width : Z) (buffer : list ascii) (changed : list bool)
    (y x : Z) (out : string) : option string :=
  i ← cell_index width x y;
  flag ← vec_get changed i;
  if flag : bool then
    c ← vec_get buffer i;
    Some (out ++
          (if Ascii.eqb c "*" then cursor_to (y + 1) (x + 1) ++ "*"
           else cursor_to (y + 1) (x + 1) ++ " "))%string
  else Some out.

Definition displayBuffer (width height : Z) (buffer : list ascii)
    (changed : list bool) (out : string) : option string :=
  for_range height
    (fun y => for_range width (display_cell width buffer changed y)) out.

(** ** Reference descriptions the code is compared with *)

Definition concat_str (l : list string) : string :=
  foldr String.append EmptyString l.

(** The text [displayBuffer] writes for cell [(x, y)]: a cursor move and
    an asterisk or a space when the cell is flagged, nothing otherwise. *)
Definition cell_text (width : Z) (buffer : list ascii) (changed : list bool)
    (y x : Z) : string :=
  match changed !! Z.to_nat (y * width + x), buffer !! Z.to_nat (y * width + x) with
  | Some true, Some c =>
      (cursor_to (y + 1) (x + 1)
       ++ (if Ascii.eqb c "*" then "*" else " "))%string
  | _, _ => EmptyString
  end.

Definition frame_text (width height : Z) (buffer : list ascii)
    (changed : list bool) : string :=
  concat_str
    (map (fun y => concat_str (map (cell_text width buffer changed y) (seqZ 0 width)))
         (seqZ 0 height)).

(** The display writer as the specification words it: a flagged cell is
    drawn with the character the buffer holds. *)
Definition cell_text_spec (width : Z) (buffer : list ascii) (changed : list bool)
    (y x : Z) : string :=
  match changed !! Z.to_nat (y * width + x), buffer !! Z.to_nat (y * width + x) with
  | Some true, Some c => (cursor_to (y + 1) (x + 1) ++ String c EmptyString)%string
  | _, _ => EmptyString
  end.

Definition frame_text_spec (width height : Z) (buffer : list ascii)
    (changed : list bool) : string :=
  concat_str
    (map (fun y => concat_str (map (cell_text_spec width buffer changed y) (seqZ 0 width)))
         (seqZ 0 height)).

(** The nearest integer to a finite float, halves away from zero (C's
    [round]). *)
Definition roundZ (x : float) : option Z :=
  match x with
  | S754_zero _ => Some 0
  | S754_finite s m e =>
      Some (cond_Zopp s
              (if 0 <=? e then Zpos m * 2 ^ e
               else (2 * Zpos m + 2 ^ (- e)) / 2 ^ (- e + 1)))
  | _ => None
  end.

(** Reflective shading as the specification words it: the clamped
    intensity is mapped to the nearest palette index by rounding. *)
Definition getShade_round_spec (t : float) : option ascii :=
  i ← roundZ (F32.mul (clamp01 t) (of_int last_shade));
  shade_at i.

(** The horizontal view-plane coordinate as the specification words it:
    scaled by the sub-rectangle's own aspect ratio. *)
Definition view_u_spec (adjustedWidth adjustedHeight x : Z) : float :=
  F32.mul
    (F32.div (F32.sub (of_int x) (F32.div (of_int adjustedWidth) two))
             (of_int adjustedWidth))
    (F32.div (of_int adjustedWidth) (of_int adjustedHeight)).

(** Cameras used in the examples. *)
Definition camera_start : Vec3 := vec3_of_ints 0 1 (-6).
Definition camera_near : Vec3 := mkVec3 zero two (F32.div (of_int 3) two).

(** A camera whose centre ray grazes the side of the sphere:
    x = 1 - 33 * 2^-24, y = 2 - 2^-23 (the [float] just below 2), z = -6. *)
Definition camera_graze : Vec3 :=
  mkVec3 (S754_finite false 16777183 (-24)) (S754_finite false 16777215 (-23))
         (of_int (-6)).

(** The grid of [main] and its aspect-corrected sub-rectangle. *)
Definition main_width : Z := 200.
Definition main_height : Z := 250.
Definition main_adjustedWidth : Z := 200.
Definition main_adjustedHeight : Z := 112.

(** The camera ray of a cell of [main]'s grid. *)
Definition main_ray (camera : Vec3) (x y : Z) : Ray :=
  cameraRay main_width main_height main_adjustedWidth main_adjustedHeight camera x y.

(** The hit [intersect] reports for a cell of [main]'s grid (a hit at
    distance zero stands for a miss). *)
Definition main_hit (camera : Vec3) (x y : Z) : Hit :=
  default (mkHit zero (vec3_of_ints 0 0 0) (vec3_of_ints 0 0 0))
          (intersect sphere (main_ray camera x y)).

(** The starting camera: the centre cell (100, 56) and the cell (100, 50)
    of the lower half of the sphere. *)
Definition start_centre_hit : Hit := Eval vm_compute in main_hit camera_start 100 56.
Definition start_lower_hit : Hit := Eval vm_compute in main_hit camera_start 100 50.

(** A small grid (8 by 3, sub-rectangle 5 by 3) before and after one
    [render] call from the starting camera. *)
Definition small_frame : frame := (replicate 24 "000"%char, replicate 24 true).
Definition small_frame_rendered : frame :=
  Eval vm_compute in default small_frame (render 8 3 camera_start small_frame).

(** A 4 by 2 grid of spaces after one [render] call from the camera
    (0, 2, 1.5), which is less than one unit away from the sphere. *)
Definition near_frame : frame :=
  Eval vm_compute in
    default ([], []) (render 4 2 camera_near (replicate 8 " "%char, replicate 8 false)).

(** ** Classes of binary32 values *)

(** [small x]: the mantissa of [x] fits in 24 bits, as that of every
    binary32 value does. *)
Definition small (x : float) : Prop :=
  match x with
  | S754_finite _ m _ => Zpos m < 2 ^ 24
  | _ => True
  end.

(** The values the two clamping statements of [getShade] can leave in [t]
    when it is a number: a zero, one, or a positive fraction m * 2^e with
    m < 2^24 and e <= -24 (hence below one). *)
Inductive clamped : float -> Prop :=
| clamped_zero (s : bool) : clamped (S754_zero s)
| clamped_one : clamped one
| clamped_fraction (m : positive) (e : Z) :
    Zpos m < 2 ^ 24 -> e <= -24 -> clamped (S754_finite false m e).



(** [nonneg x]: [x] is NaN, a zero, plus infinity or a positive number. *)
Definition nonneg (x : float) : Prop :=
  match x with
  | S754_zero _ => True
  | S754_infinity s => s = false
  | S754_nan => True
  | S754_finite s _ _ => s = false
  end.

(** ** [main] *)

(** Binary64 arithmetic, for the [double] literal [0.2] of the key
    handler. *)
Module F64.

Definition prec : Z := 53.
Definition emax : Z := 1024.

Definition add : spec_float -> spec_float -> spec_float := SFadd prec emax.
Definition sub : spec_float -> spec_float -> spec_float := SFsub prec emax.

(** Conversion of a [float] to [double] (exact). *)
Definition of_float (x : F32.float) : spec_float :=
  match x with
  | S754_finite s m e => binary_round prec emax s m e
  | _ => x
  end.

(** Conversion of a [double] to [float] (rounded to nearest-even). *)
Definition to_float (x : spec_float) : F32.float :=
  match x with
  | S754_finite s m e => binary_round F32.prec F32.emax s m e
  | _ => x
  end.

(** The literal [0.2]: the [double] nearest to 1/5. *)
Definition step : spec_float :=
  SFdiv prec emax (binary_normalize prec emax 1 0 false)
                  (binary_normalize prec emax 5 0 false).

End F64.

(** [c += 0.2] and [c -= 0.2] on a [float] coordinate: the sum is formed
    in [double] and converted back. *)
Definition plus_step (c : float) : float :=
  F64.to_float (F64.add (F64.of_float c) F64.step).

Definition minus_step (c : float) : float :=
  F64.to_float (F64.sub (F64.of_float c) F64.step).

(** The [switch] of [main]'s loop. *)
Definition handle_key (ch : ascii) (camera : Vec3) : Vec3 :=
  if Ascii.eqb ch "w" then mkVec3 (vx camera) (vy camera) (plus_step (vz camera))
  else if Ascii.eqb ch "s" then mkVec3 (vx camera) (vy camera) (minus_step (vz camera))
  else if Ascii.eqb ch "a" then mkVec3 (minus_step (vx camera)) (vy camera) (vz camera)
  else if Ascii.eqb ch "d" then mkVec3 (plus_step (vx camera)) (vy camera) (vz camera)
  else if Ascii.eqb ch "y" then mkVec3 (vx camera) (plus_step (vy camera)) (vz camera)
  else if Ascii.eqb ch "x" then mkVec3 (vx camera) (minus_step (vy camera)) (vz camera)
  else camera.

(** The keys the [switch] has a case for. *)
Definition movement_key (ch : ascii) : bool :=
  Ascii.eqb ch "w" || Ascii.eqb ch "s" || Ascii.eqb ch "a"
  || Ascii.eqb ch "d" || Ascii.eqb ch "y" || Ascii.eqb ch "x".

(** The state of [main]'s loop: the camera, the frame and the text
    written to the terminal so far. *)
Definition loop_state : Type := (Vec3 * frame * string)%type.

(** One iteration of [main]'s loop for the key [ch] that [_getch]
    returned, on a grid of the given size. *)
Definition loop_iteration (width height : Z) (ch : ascii) (st : loop_state)
    : option loop_state :=
  let '(camera, fr, out) := st in
  let camera' := handle_key ch camera in
  fr' ← render width height camera' fr;
  out' ← displayBuffer width height (fst fr') (snd fr') out;
  Some (camera', fr', out').

(** The loop of [main] over the keys read so far. *)
Fixpoint main_loop (width height : Z) (keys : list ascii) (st : loop_state)
    : option loop_state :=
  match keys with
  | [] => Some st
  | ch :: keys' =>
      match loop_iteration width height ch st with
      | Some st' => main_loop width height keys' st'
      | None => None
      end
  end.

(** What [main] writes before its loop. *)
Definition prologue : string :=
  (String "027" "[2J" ++ String "027" "[H" ++ "Press any key to start")%string.

(** [main] after the given keys: the vectors are value-initialized. *)
Definition main (keys : list ascii) : option loop_state :=
  main_loop main_width main_height keys
    (camera_start,
     (replicate (Z.to_nat (main_width * main_height)) "000"%char,
      replicate (Z.to_nat (main_width * main_height)) false),
     prologue).

(** ** Descriptions used by the further properties *)

(** [in_palette c]: [c] is one of the seven characters of [shades]. *)
Definition in_palette (c : ascii) : Prop := In c (list_ascii_of_string shades).

(** The text of a frame in terms of the buffer before and after the
    [render] call: a cell is drawn when its character differs. *)
Definition diff_cell_text (width : Z) (before after : list ascii) (y x : Z) : string :=
  match before !! Z.to_nat (y * width + x), after !! Z.to_nat (y * width + x) with
  | Some c0, Some c1 =>
      if Ascii.eqb c1 c0 then EmptyString
      else (cursor_to (y + 1) (x + 1)
            ++ (if Ascii.eqb c1 "*" then "*" else " "))%string
  | _, _ => EmptyString
  end.

Definition diff_text (width height : Z) (before after : list ascii) : string :=
  concat_str
    (map (fun y => concat_str (map (diff_cell_text width before after y) (seqZ 0 width)))
         (seqZ 0 height)).

(** A point with negative and positive coordinates, and a camera too far
    away for the discriminant of [intersect] to be a number. *)
Definition sample_point : Vec3 :=
  mkVec3 (F32.div (of_int (-3)) two) (of_int 7) (F32.div one two).
Definition camera_remote : Vec3 := mkVec3 zero (of_int (10 ^ 20)) (of_int (-6)).

(** The states of [main]'s loop in which the buffer is the frame of the
    camera: rendering again, whatever the flags, leaves the buffer as it
    is and clears the flags. *)
Definition settled_state (width height : Z) (st : loop_state) : Prop :=
  let '(camera, fr, out) := st in
  length (snd fr) = Z.to_nat (width * height)
  /\ forall flags,
       render width height camera (fst fr, flags)
       = Some (fst fr, replicate (length flags) false).

(** The small grid after the key [w]: the frame and the text written. *)
Definition moved_state : loop_state :=
  Eval vm_compute in
    default (camera_start, small_frame, EmptyString)
            (loop_iteration 8 3 "w" (camera_start, small_frame, EmptyString)).
Definition moved_frame : frame := snd (fst moved_state).
Definition moved_text : string := snd moved_state.

(** [stepped_before y x y' x']: in the row-major order of the loops of
    [render], the cell (x', y') has its step before the cell (x, y). *)
Definition stepped_before (y x y' x' : Z) : bool :=
  (y' <? y) || ((y' =? y) && (x' <? x)).

(** * Theorems *)

(** ** Loops *)

Section ForLoop.
Context {S : Type}.
Implicit Types (body : Z -> S -> option S) (s : S).

Lemma for_loop_succ n i body s :
  for_loop (Datatypes.S n) i body s = body i s ≫= for_loop n (i + 1) body.
Proof. simpl. destruct (body i s); reflexivity. Qed.

(** An invariant indexed by the loop counter. *)
Lemma for_loop_inv (P : Z -> S -> Prop) body n :
  forall i s s',
    for_loop n i body s = Some s' ->
    P i s ->
    (forall j t t', i <= j < i + Z.of_nat n -> P j t -> body j t = Some t' -> P (j + 1) t') ->
    P (i + Z.of_nat n) s'.
Proof.
  induction n as [|n IH]; intros i s s' Hrun Hinit Hstep.
  - simpl in Hrun. injection Hrun as <-. replace (i + Z.of_nat 0) with i by lia. exact Hinit.
  - simpl in Hrun. destruct (body i s) as [s1|] eqn:Hb; [|discriminate].
    replace (i + Z.of_nat (Datatypes.S n)) with (i + 1 + Z.of_nat n) by lia.
    apply (IH (i + 1) s1 s' Hrun).
    + apply (Hstep i s s1); [lia | exact Hinit | exact Hb].
    + intros j t t' Hj. apply Hstep. lia.
Qed.

(** A body that leaves the state as it is makes the loop do so. *)
Lemma for_loop_fixed body n s :
  forall i,
    (forall j, i <= j < i + Z.of_nat n -> body j s = Some s) ->
    for_loop n i body s = Some s.
Proof.
  induction n as [|n IH]; intros i Hfix; [reflexivity|].
  simpl. rewrite Hfix by lia. apply IH. intros j Hj. apply Hfix. lia.
Qed.

Lemma for_range_inv (P : Z -> S -> Prop) body hi s s' :
  for_range hi body s = Some s' ->
  P 0 s ->
  (forall j t t', 0 <= j < hi -> P j t -> body j t = Some t' -> P (j + 1) t') ->
  P (Z.max 0 hi) s'.
Proof.
  unfold for_range. intros Hrun Hinit Hstep.
  replace (Z.max 0 hi) with (0 + Z.of_nat (Z.to_nat hi)) by lia.
  apply (for_loop_inv P body _ 0 s s' Hrun Hinit).
  intros j t t' Hj. apply Hstep. lia.
Qed.

Lemma for_range_fixed body hi s :
  (forall j, 0 <= j < hi -> body j s = Some s) ->
  for_range hi body s = Some s.
Proof.
  intros Hfix. unfold for_range. apply for_loop_fixed. intros j Hj. apply Hfix. lia.
Qed.

End ForLoop.

Lemma append_nil_r (a : string) : (a ++ "")%string = a.
Proof. induction a as [|c a IH]; simpl; congruence. Qed.

Lemma append_assoc (a b c : string) :
  ((a ++ b) ++ c)%string = (a ++ (b ++ c))%string.
Proof. induction a as [|x a IH]; simpl; congruence. Qed.

(** A loop whose body appends a text that depends on the counter only. *)
Lemma for_loop_emit (body : Z -> string -> option string) (f : Z -> string) n :
  forall i out,
    (forall j o, i <= j < i + Z.of_nat n -> body j o = Some (o ++ f j)%string) ->
    for_loop n i body out = Some (out ++ concat_str (map f (seqZ i (Z.of_nat n))))%string.
Proof.
  induction n as [|n IH]; intros i out Hbody.
  - simpl. rewrite append_nil_r. reflexivity.
  - rewrite for_loop_succ, Hbody by lia. simpl.
    rewrite IH by (intros j o Hj; apply Hbody; lia).
    f_equal.
    replace (Z.of_nat (Datatypes.S n)) with (Z.succ (Z.of_nat n)) by lia.
    rewrite (seqZ_cons i) by lia. simpl.
    replace (Z.succ i) with (i + 1) by lia.
    replace (Z.pred (Z.succ (Z.of_nat n))) with (Z.of_nat n) by lia.
    apply append_assoc.
Qed.

Lemma for_range_emit (body : Z -> string -> option string) (f : Z -> string) hi out :
  (forall j o, 0 <= j < hi -> body j o = Some (o ++ f j)%string) ->
  for_range hi body out = Some (out ++ concat_str (map f (seqZ 0 hi)))%string.
Proof.
  intros Hbody. unfold for_range.
  rewrite (for_loop_emit body f) by (intros j o Hj; apply Hbody; lia).
  destruct (Z.le_gt_cases 0 hi) as [Hhi|Hhi].
  - rewrite Z2Nat.id by lia. reflexivity.
  - replace (Z.to_nat hi) with 0%nat by lia. simpl.
    rewrite (seqZ_nil 0 hi) by lia. reflexivity.
Qed.

(** ** Cells and indices *)

Lemma int_ok_spec z : int_ok z = true <-> INT_MIN <= z <= INT_MAX.
Proof. unfold int_ok. rewrite andb_true_iff, !Z.leb_le. reflexivity. Qed.

Lemma cell_index_some width x y i :
  cell_index width x y = Some i -> i = y * width + x.
Proof.
  unfold cell_index. destruct (_ && _); [|discriminate]. congruence.
Qed.

Lemma cell_index_grid width height x y :
  width * height <= INT_MAX + 1 ->
  0 <= x < width -> 0 <= y < height ->
  cell_index width x y = Some (y * width + x).
Proof.
  intros Hsz Hx Hy. unfold cell_index.
  assert (Hr : 0 <= y * width /\ y * width + x < width * height) by nia.
  assert (H1 : int_ok (y * width) = true)
    by (apply int_ok_spec; unfold INT_MIN, INT_MAX in *; lia).
  assert (H2 : int_ok (y * width + x) = true)
    by (apply int_ok_spec; unfold INT_MIN, INT_MAX in *; lia).
  rewrite H1, H2. reflexivity.
Qed.

Lemma vec_get_lookup {A : Type} (v : list A) (i : Z) (a : A) :
  vec_get v i = Some a -> 0 <= i /\ v !! Z.to_nat i = Some a.
Proof.
  unfold vec_get. destruct (Z.leb_spec 0 i); [auto | discriminate].
Qed.

Lemma vec_get_in_range {A : Type} (v : list A) (i : Z) :
  0 <= i -> (Z.to_nat i < length v)%nat ->
  exists a, vec_get v i = Some a /\ v !! Z.to_nat i = Some a.
Proof.
  intros Hi Hlt. unfold vec_get.
  destruct (lookup_lt_is_Some_2 v (Z.to_nat i) Hlt) as [a Ha].
  exists a. rewrite Ha. destruct (Z.leb_spec 0 i); [auto | lia].
Qed.

(** ** C1: the display writer *)

Section Display.
Variables (width height : Z) (buffer : list ascii) (changed : list bool).
Hypothesis Hsize : width * height <= INT_MAX + 1.
Hypothesis Hbuffer : length buffer = Z.to_nat (width * height).
Hypothesis Hchanged : length changed = Z.to_nat (width * height).

Lemma display_cell_text y x out :
  0 <= x < width -> 0 <= y < height ->
  display_cell width buffer changed y x out
  = Some (out ++ cell_text width buffer changed y x)%string.
Proof using Hsize Hbuffer Hchanged.
  intros Hx Hy. unfold display_cell, cell_text.
  rewrite (cell_index_grid width height) by assumption. simpl.
  assert (Hr : 0 <= y * width + x < width * height) by nia.
  destruct (vec_get_in_range changed (y * width + x)) as (flag & -> & ->); [lia | lia |].
  destruct (vec_get_in_range buffer (y * width + x)) as (c & -> & ->); [lia | lia |].
  simpl. destruct flag; [|rewrite append_nil_r; reflexivity].
  destruct (Ascii.eqb c "*"); reflexivity.
Qed.

Lemma displayBuffer_frame_text out :
  displayBuffer width height buffer changed out
  = Some (out ++ frame_text width height buffer changed)%string.
Proof using Hsize Hbuffer Hchanged.
  unfold displayBuffer, frame_text.
  apply (for_range_emit _
           (fun y => concat_str (map (cell_text width buffer changed y) (seqZ 0 width)))).
  intros y o Hy. apply for_range_emit.
  intros x o' Hx. apply display_cell_text; assumption.
Qed.

(** Where every flagged cell holds an asterisk or a space, the text is the
    one the specification describes. *)
Lemma frame_text_marker_or_blank :
  (forall x y c,
      0 <= x < width -> 0 <= y < height ->
      changed !! Z.to_nat (y * width + x) = Some true ->
      buffer !! Z.to_nat (y * width + x) = Some c ->
      c = "*"%char \/ c = " "%char) ->
  frame_text width height buffer changed
  = frame_text_spec width height buffer changed.
Proof using Type.
  intros Hmb. unfold frame_text, frame_text_spec. f_equal.
  apply map_ext_in. intros y Hy%list_elem_of_In%elem_of_seqZ. f_equal.
  apply map_ext_in. intros x Hx%list_elem_of_In%elem_of_seqZ.
  unfold cell_text, cell_text_spec.
  destruct (changed !! _) as [[|]|] eqn:Hc; try reflexivity.
  destruct (buffer !! _) as [c|] eqn:Hb; try reflexivity.
  destruct (Hmb x y c) as [-> | ->]; auto; lia.
Qed.

End Display.

(** C1, as amended.  For every buffer and change mask of the grid's size,
    [displayBuffer] writes, cell after cell in row-major order, exactly the
    texts [cell_text]: for a flagged cell one cursor-positioning sequence
    at (row+1, column+1) followed by an asterisk when the buffer holds an
    asterisk there and by a space otherwise, and nothing for a cell that is
    not flagged.  When the flagged cells of the buffer hold only asterisks
    and spaces this is the buffer's own character at each of them. *)
Theorem displayBuffer_draws_marker_or_blank
    (width height : Z) (buffer : list ascii) (changed : list bool) (out : string) :
  width * height <= INT_MAX + 1 ->
  length buffer = Z.to_nat (width * height) ->
  length changed = Z.to_nat (width * height) ->
  displayBuffer width height buffer changed out
  = Some (out ++ frame_text width height buffer changed)%string
  /\ (forall x y c,
         changed !! Z.to_nat (y * width + x) = Some true ->
         buffer !! Z.to_nat (y * width + x) = Some c ->
         cell_text width buffer changed y x
         = (cursor_to (y + 1) (x + 1)
            ++ String (if Ascii.eqb c "*" then "*"%char else " "%char) "")%string)
  /\ (forall x y,
         changed !! Z.to_nat (y * width + x) = Some false ->
         cell_text width buffer changed y x = ""%string)
  /\ ((forall x y c,
          0 <= x < width -> 0 <= y < height ->
          changed !! Z.to_nat (y * width + x) = Some true ->
          buffer !! Z.to_nat (y * width + x) = Some c ->
          c = "*"%char \/ c = " "%char) ->
      displayBuffer width height buffer changed out
      = Some (out ++ frame_text_spec width height buffer changed)%string).
Proof.
  intros Hsize Hbuffer Hchanged. repeat split.
  - apply displayBuffer_frame_text; assumption.
  - intros x y c Hc Hb. unfold cell_text. rewrite Hc, Hb.
    destruct (Ascii.eqb c "*"); reflexivity.
  - intros x y Hc. unfold cell_text. rewrite Hc. reflexivity.
  - intros Hmb. rewrite <- (frame_text_marker_or_blank _ _ _ _ Hmb).
    apply displayBuffer_frame_text; assumption.
Qed.

Lemma displayBuffer_draws_marker_or_blank_witness :
  displayBuffer 2 2 ["*"; "."; " "; "*"]%char [true; true; false; true] ""
  = Some ("" ++ frame_text 2 2 ["*"; "."; " "; "*"]%char [true; true; false; true])%string.
Proof.
  apply (displayBuffer_draws_marker_or_blank 2 2 ["*"; "."; " "; "*"]%char
           [true; true; false; true] "");
    [unfold INT_MAX; lia | reflexivity | reflexivity].
Defined.

(** C1 as stated fails: a flagged cell holding a period is drawn as a
    space, not as the buffer's character.  [render] itself produces such
    cells: from the camera (0, 2, 1.5) the cell (2, 1) of a 4 by 2 grid is
    set to a dash and flagged, and [displayBuffer] draws a space there. *)
Lemma displayBuffer_not_buffer_char :
  (displayBuffer 1 1 ["."%char] [true] ""
   = Some (String "027" "[1;1H ")
   /\ frame_text_spec 1 1 ["."%char] [true] = String "027" "[1;1H."
   /\ displayBuffer 1 1 ["."%char] [true] ""
      <> Some ("" ++ frame_text_spec 1 1 ["."%char] [true])%string)
  /\ (render 4 2 camera_near (replicate 8 " "%char, replicate 8 false) = Some near_frame
      /\ fst near_frame !! Z.to_nat (1 * 4 + 2) = Some "-"%char
      /\ snd near_frame !! Z.to_nat (1 * 4 + 2) = Some true
      /\ cell_text 4 (fst near_frame) (snd near_frame) 1 2 = String "027" "[2;3H "
      /\ displayBuffer 4 2 (fst near_frame) (snd near_frame) ""
         <> Some ("" ++ frame_text_spec 4 2 (fst near_frame) (snd near_frame))%string).
Proof.
  split.
  - split; [reflexivity | split; [reflexivity | discriminate]].
  - split; [vm_compute; reflexivity|].
    split; [reflexivity|]. split; [reflexivity|]. split; [reflexivity|].
    vm_compute. discriminate.
Qed.

(** ** C5: ray-sphere intersection *)

Lemma intersect_unfold (s : Sphere) (ray : Ray) :
  intersect s ray
  = if F32.ltb (discriminant s ray) zero || F32.leb (near_root s ray) zero
    then None
    else
      let hitPoint :=
        Vec3Ops.add (origin ray) (Vec3Ops.scale (direction ray) (near_root s ray)) in
      Some (mkHit (near_root s ray) hitPoint
              (Vec3Ops.normalize (Vec3Ops.sub hitPoint (center s)))).
Proof.
  unfold intersect, near_root, discriminant.
  destruct (F32.ltb _ zero); [reflexivity|].
  destruct (F32.leb _ zero); reflexivity.
Qed.



(** ** Shading at full intensity *)

Lemma one_eq : one = S754_finite false 8388608 (-23).
Proof. reflexivity. Qed.

Lemma zero_eq : zero = S754_zero false.
Proof. reflexivity. Qed.

Lemma clamp01_ge_one t : F32.leb one t = true -> clamp01 t = one.
Proof.
  unfold clamp01, F32.leb, F32.ltb, SFleb, SFltb. rewrite zero_eq, one_eq.
  destruct t as [s|s| |s m e]; cbv beta iota delta [SFcompare].
  - discriminate.
  - destruct s; [discriminate | reflexivity].
  - discriminate.
  - destruct s; [discriminate|].
    destruct (Z.compare_spec (-23) e) as [He|He|He]; try discriminate; try reflexivity.
    subst e.
    destruct (Pos.compare_cont Eq 8388608 m) eqn:Hm; try discriminate; try reflexivity.
    apply Pos.compare_eq in Hm. subst m. reflexivity.
Qed.

Lemma getShade_ge_one t : F32.leb one t = true -> getShade t true = Some "*"%char.
Proof.
  intros H. unfold getShade. rewrite (clamp01_ge_one t H). reflexivity.
Qed.

(** [getShade(1, b)]: an asterisk for [true], a space for [false]. *)
Lemma getShade_one b :
  getShade one b = Some (if b then "*"%char else " "%char).
Proof. destruct b; reflexivity. Qed.

(** The parity test of [isCheckerboard] is evenness. *)
Lemma rem2_even z : (Z.rem z 2 =? 0) = Z.even z.
Proof.
  destruct (Z.even z) eqn:He.
  - apply Z.even_spec in He as [k ->]. rewrite Z.mul_comm, Z.rem_mul by lia. reflexivity.
  - apply Z.eqb_neq. intros Hr.
    pose proof (Z.quot_rem' z 2) as Hq. rewrite Hr, Z.add_0_r in Hq.
    assert (Hev : Z.even z = true) by (apply Z.even_spec; exists (Z.quot z 2); exact Hq).
    congruence.
Qed.

(** ** C2: a sphere hit whose reflection does not reach the floor *)

(** C2, as amended.  For every camera position and every cell whose camera
    ray hits the sphere, if the reflection ray has no positive crossing with
    the floor ([floorDist > 0] is false), the cell's character is
    [getShade(t, true)] for the hit distance [t] (not for intensity 1); it is
    the brightest character, the asterisk, whenever [t >= 1]. *)
Theorem skyward_reflection_shades_hit_distance
    (width height adjustedWidth adjustedHeight : Z) (camera : Vec3) (x y : Z) (h : Hit) :
  let ray := cameraRay width height adjustedWidth adjustedHeight camera x y in
  intersect sphere ray = Some h ->
  F32.ltb zero (hitFloorDist ray h) = false ->
  cellChar width height adjustedWidth adjustedHeight camera x y = getShade (hit_t h) true
  /\ (F32.leb one (hit_t h) = true ->
      cellChar width height adjustedWidth adjustedHeight camera x y = Some "*"%char).
Proof.
  intros ray Hhit Hfloor.
  assert (Hc : cellChar width height adjustedWidth adjustedHeight camera x y
               = getShade (hit_t h) true).
  { unfold cellChar, shadeRay. fold ray. rewrite Hhit, Hfloor. reflexivity. }
  split; [exact Hc|].
  intros Hge. rewrite Hc. apply getShade_ge_one. exact Hge.
Qed.

Lemma skyward_reflection_shades_hit_distance_witness :
  cellChar 200 250 200 112 camera_start 100 56 = Some "*"%char.
Proof.
  apply (skyward_reflection_shades_hit_distance 200 250 200 112 camera_start 100 56
           start_centre_hit); vm_compute; reflexivity.
Defined.

(** C2 as stated fails: from the camera (0, 2, 1.5) the centre cell of
    [main]'s grid hits the sphere at distance 0.5, its reflection does not
    cross the floor, and the cell is drawn with a dash, not with the
    character of intensity 1. *)
Lemma skyward_reflection_not_brightest :
  adjusted 200 250 = Some (200, 112)
  /\ (exists h,
         intersect sphere (cameraRay 200 250 200 112 camera_near 100 56) = Some h
         /\ hit_t h = F32.div one two
         /\ F32.ltb zero (hitFloorDist (cameraRay 200 250 200 112 camera_near 100 56) h)
            = false)
  /\ cellChar 200 250 200 112 camera_near 100 56 = Some "-"%char
  /\ getShade one true = Some "*"%char
  /\ cellChar 200 250 200 112 camera_near 100 56 <> getShade one true.
Proof.
  split; [vm_compute; reflexivity|].
  split.
  { exists (main_hit camera_near 100 56). vm_compute. auto. }
  split; [vm_compute; reflexivity|].
  split; [vm_compute; reflexivity|].
  vm_compute. discriminate.
Qed.

(** ** The loops of [render] *)

Lemma adjusted_shape width height adjustedWidth adjustedHeight :
  adjusted width height = Some (adjustedWidth, adjustedHeight) ->
  adjustedHeight <= height /\ (adjustedWidth = width \/ adjustedHeight = height).
Proof.
  unfold adjusted. destruct (to_int (F32.div _ _)) as [ah0|]; [|discriminate].
  simpl. destruct (Z.ltb_spec height ah0) as [Hlt|Hge].
  - destruct (to_int (F32.mul _ _)) as [aw0|]; [|discriminate].
    simpl. intros [= <- <-]. lia.
  - intros [= <- <-]. lia.
Qed.

Lemma vec_set_some {A : Type} (v v' : list A) (i : Z) (a : A) :
  vec_set v i a = Some v' ->
  0 <= i /\ (Z.to_nat i < length v)%nat /\ v' = <[Z.to_nat i := a]> v.
Proof.
  unfold vec_set. destruct (Z.leb_spec 0 i); [|discriminate].
  destruct (Z.ltb_spec i (Z.of_nat (length v))); [|discriminate].
  simpl. intros [= <-]. repeat split; [assumption | lia].
Qed.

Section RenderCell.
Variables (width height adjustedWidth adjustedHeight : Z) (camera : Vec3).

Local Abbreviation step := (render_cell width height adjustedWidth adjustedHeight camera).
Local Abbreviation pixel := (cellChar width height adjustedWidth adjustedHeight camera).

(** What one execution of the inner loop's body does. *)
Lemma render_cell_spec y x buffer changed buffer' changed' :
  step y x (buffer, changed) = Some (buffer', changed') ->
  exists newChar old,
    pixel x y = Some newChar
    /\ cell_index width x y = Some (y * width + x)
    /\ 0 <= y * width + x
    /\ buffer !! Z.to_nat (y * width + x) = Some old
    /\ buffer' !! Z.to_nat (y * width + x) = Some newChar
    /\ length buffer' = length buffer
    /\ length changed' = length changed
    /\ (forall k, k <> Z.to_nat (y * width + x) ->
                  buffer' !! k = buffer !! k /\ changed' !! k = changed !! k)
    /\ (newChar = old -> buffer' = buffer /\ changed' = changed).
Proof using Type.
  unfold render_cell.
  destruct (pixel x y) as [newChar|]; [|discriminate]. simpl.
  destruct (cell_index width x y) as [i|] eqn:Hi; [|discriminate]. simpl.
  pose proof (cell_index_some _ _ _ _ Hi) as ->.
  destruct (vec_get buffer _) as [old|] eqn:Hold; [|discriminate]. simpl.
  apply vec_get_lookup in Hold as [Hnn Hold].
  intros Hrun. exists newChar, old. revert Hrun.
  destruct (Ascii.eqb_spec newChar old) as [->|Hne].
  - intros [= <- <-]. repeat split; auto.
  - destruct (vec_set buffer _ newChar) as [b1|] eqn:Hb; [|discriminate]. simpl.
    destruct (vec_set changed _ true) as [c1|] eqn:Hc; [|discriminate]. simpl.
    intros [= <- <-].
    apply vec_set_some in Hb as (_ & Hlb & ->).
    apply vec_set_some in Hc as (_ & Hlc & ->).
    repeat split; auto.
    + apply list_lookup_insert_eq. exact Hlb.
    + apply length_insert.
    + apply length_insert.
    + apply list_lookup_insert_ne. auto.
    + apply list_lookup_insert_ne. auto.
    + contradiction.
    + contradiction.
Qed.

Local Abbreviation loops :=
  (for_range adjustedHeight (fun y => for_range adjustedWidth (step y))).

(** An invariant of the frame that every cell's step preserves. *)
Lemma render_loops_inv (P : frame -> Prop) fr fr' :
  loops fr = Some fr' ->
  P fr ->
  (forall x y f f',
      0 <= x < adjustedWidth -> 0 <= y < adjustedHeight ->
      P f -> step y x f = Some f' -> P f') ->
  P fr'.
Proof using Type.
  intros Hrun Hinit Hstep.
  apply (for_range_inv (fun _ => P) _ _ _ _ Hrun Hinit).
  intros y f f' Hy Hf Hrow.
  apply (for_range_inv (fun _ => P) _ _ _ _ Hrow Hf).
  intros x g g' Hx Hg Hcell. apply (Hstep x y g g'); assumption.
Qed.

(** A property that the step of a cell establishes for this cell, and
    that the steps of the other cells preserve, holds of every cell of
    the sub-rectangle when the loops are over. *)
Lemma render_loops_settle (G : Z -> Z -> frame -> Prop) fr fr' :
  loops fr = Some fr' ->
  (forall x y f f',
      0 <= x < adjustedWidth -> 0 <= y < adjustedHeight ->
      step y x f = Some f' -> G x y f') ->
  (forall x y x' y' f f',
      0 <= x < adjustedWidth -> 0 <= y < adjustedHeight ->
      0 <= x' < adjustedWidth -> 0 <= y' < adjustedHeight ->
      (x', y') <> (x, y) ->
      G x' y' f -> step y x f = Some f' -> G x' y' f') ->
  forall x y, 0 <= x < adjustedWidth -> 0 <= y < adjustedHeight -> G x y fr'.
Proof using Type.
  intros Hrun Hest Hpres.
  pose (Qo := fun (y : Z) (f : frame) =>
                forall y' x', 0 <= y' < y -> 0 <= x' < adjustedWidth -> G x' y' f).
  assert (Hend : Qo (Z.max 0 adjustedHeight) fr').
  { apply (for_range_inv Qo _ _ _ _ Hrun).
    - intros y' x' Hy'. lia.
    - intros y f f' Hy Hf Hrow.
      pose (Qi := fun (x : Z) (g : frame) =>
                    Qo y g /\ forall x', 0 <= x' < x -> G x' y g).
      assert (Hrow_end : Qi (Z.max 0 adjustedWidth) f').
      { apply (for_range_inv Qi _ _ _ _ Hrow).
        - split; [exact Hf | intros x' Hx'; lia].
        - intros x g g' Hx [Hg1 Hg2] Hcell. split.
          + intros y' x' Hy' Hx'.
            apply (Hpres x y x' y' g g'); try assumption; try lia.
            * intros [= -> ->]. lia.
            * apply Hg1; assumption.
          + intros x' Hx'.
            destruct (Z.eq_dec x' x) as [->|Hne].
            * apply (Hest x y g g'); assumption.
            * apply (Hpres x y x' y g g'); try assumption; try lia.
              -- intros [= ->]. lia.
              -- apply Hg2. lia. }
      destruct Hrow_end as [H1 H2].
      intros y' x' Hy' Hx'.
      destruct (Z.eq_dec y' y) as [->|Hne].
      + apply H2. lia.
      + apply H1; [lia | assumption]. }
  intros x y Hx Hy. apply Hend; [lia | assumption].
Qed.

End RenderCell.

Lemma render_unfold width height camera fr fr' :
  render width height camera fr = Some fr' ->
  exists adjustedWidth adjustedHeight,
    adjusted width height = Some (adjustedWidth, adjustedHeight)
    /\ for_range adjustedHeight
         (fun y => for_range adjustedWidth
            (render_cell width height adjustedWidth adjustedHeight camera y))
         (fst fr, clear_flags (snd fr)) = Some fr'.
Proof.
  unfold render. destruct (adjusted width height) as [[aw ah]|]; [|discriminate].
  simpl. intros H. exists aw, ah. auto.
Qed.

(** Two cells of a row-major grid with the same index are the same cell. *)
Lemma row_major_injective width x y x' y' :
  0 <= x < width -> 0 <= x' < width ->
  y * width + x = y' * width + x' -> x = x' /\ y = y'.
Proof.
  intros Hx Hx' Heq.
  assert (Hy : y = y') by nia.
  subst y'. lia.
Qed.

(** A grid cell outside the sub-rectangle has the index of no cell of the
    sub-rectangle. *)
Lemma outside_index_fresh width height adjustedWidth adjustedHeight x y x0 y0 :
  adjustedHeight <= height ->
  adjustedWidth = width \/ adjustedHeight = height ->
  0 <= x0 < width -> 0 <= y0 < height ->
  adjustedWidth <= x0 \/ adjustedHeight <= y0 ->
  0 <= x < adjustedWidth -> 0 <= y < adjustedHeight ->
  y * width + x <> y0 * width + x0.
Proof.
  intros Hah Hshape Hx0 Hy0 Hout Hx Hy Heq.
  destruct Hshape as [-> | ->].
  - assert (y < y0) by lia. nia.
  - assert (Hxw : 0 <= x < width) by lia.
    destruct (row_major_injective width x y x0 y0 Hxw Hx0 Heq). lia.
Qed.

(** ** C9: cells outside the sub-rectangle *)

(** C9.  For every render call that returns and every grid cell outside the
    aspect-corrected sub-rectangle ([x >= adjustedWidth] or
    [y >= adjustedHeight]), the buffer's value at the cell is the one before
    the call and the cell's change flag is false. *)
Theorem render_leaves_border_untouched
    (width height : Z) (camera : Vec3) (buffer buffer' : list ascii)
    (changed changed' : list bool) (adjustedWidth adjustedHeight x y : Z) :
  render width height camera (buffer, changed) = Some (buffer', changed') ->
  adjusted width height = Some (adjustedWidth, adjustedHeight) ->
  0 <= x < width -> 0 <= y < height ->
  adjustedWidth <= x \/ adjustedHeight <= y ->
  (Z.to_nat (y * width + x) < length changed)%nat ->
  buffer' !! Z.to_nat (y * width + x) = buffer !! Z.to_nat (y * width + x)
  /\ changed' !! Z.to_nat (y * width + x) = Some false.
Proof.
  intros Hrender Hadj Hx Hy Hout Hlen.
  apply render_unfold in Hrender as (aw & ah & Hadj' & Hloops).
  rewrite Hadj in Hadj'. injection Hadj' as <- <-.
  destruct (adjusted_shape _ _ _ _ Hadj) as [Hah Hshape].
  simpl in Hloops.
  set (k := Z.to_nat (y * width + x)) in *.
  pose (P := fun f : frame =>
               fst f !! k = buffer !! k /\ snd f !! k = Some false).
  assert (HP : P (buffer', changed')).
  { apply (render_loops_inv width height adjustedWidth adjustedHeight camera P
             _ _ Hloops).
    - split; [reflexivity|]. simpl. unfold clear_flags.
      apply lookup_replicate_2. exact Hlen.
    - intros x1 y1 [b c] [b' c'] Hx1 Hy1 [Hb Hc] Hstep.
      apply render_cell_spec in Hstep
        as (nc & old & _ & _ & Hnn & _ & _ & _ & _ & Hother & _).
      assert (Hk : k <> Z.to_nat (y1 * width + x1)).
      { unfold k. intros Heq. apply Z2Nat.inj in Heq; [|nia|lia].
        symmetry in Heq. revert Heq.
        apply (outside_index_fresh width height adjustedWidth adjustedHeight);
          assumption. }
      destruct (Hother k Hk) as [Hb' Hc'].
      split; simpl in *; congruence. }
  exact HP.
Qed.

Lemma render_leaves_border_untouched_witness :
  fst small_frame_rendered !! Z.to_nat (1 * 8 + 6) = fst small_frame !! Z.to_nat (1 * 8 + 6)
  /\ snd small_frame_rendered !! Z.to_nat (1 * 8 + 6) = Some false.
Proof.
  apply (render_leaves_border_untouched 8 3 camera_start
           (fst small_frame) (fst small_frame_rendered)
           (snd small_frame) (snd small_frame_rendered) 5 3 6 1);
    [vm_compute; reflexivity | vm_compute; reflexivity | lia | lia | lia
    | vm_compute; lia].
Defined.

(** ** C7: rendering twice *)

Section RenderTwice.
Variables (width height adjustedWidth adjustedHeight : Z) (camera : Vec3).
Variables (buffer buffer1 : list ascii) (changed changed1 : list bool).

Local Abbreviation step := (render_cell width height adjustedWidth adjustedHeight camera).
Local Abbreviation pixel := (cellChar width height adjustedWidth adjustedHeight camera).

Hypothesis Hshape : adjustedWidth = width \/ adjustedHeight = height.
Hypothesis Hgrid : length buffer = Z.to_nat (width * height).
Hypothesis Hloops :
  for_range adjustedHeight (fun y => for_range adjustedWidth (step y))
    (buffer, changed) = Some (buffer1, changed1).

Lemma first_pass_length : length buffer1 = length buffer.
Proof using Hloops.
  clear Hshape Hgrid.
  apply (render_loops_inv width height adjustedWidth adjustedHeight camera
           (fun f => length (fst f) = length buffer) _ _ Hloops); [reflexivity|].
  intros x y [b c] [b' c'] _ _ Hlen Hstep.
  apply render_cell_spec in Hstep as (nc & old & _ & _ & _ & _ & _ & Hl & _).
  simpl in *. congruence.
Qed.

(** Every cell of the sub-rectangle was read inside the buffer. *)
Lemma first_pass_in_range x y :
  0 <= x < adjustedWidth -> 0 <= y < adjustedHeight ->
  0 <= y * width + x /\ (Z.to_nat (y * width + x) < length buffer)%nat.
Proof using Hloops.
  clear Hshape Hgrid. intros Hx Hy. rewrite <- first_pass_length.
  apply (render_loops_settle width height adjustedWidth adjustedHeight camera
           (fun x y f => 0 <= y * width + x
                         /\ (Z.to_nat (y * width + x) < length (fst f))%nat)
           _ _ Hloops); try assumption.
  - intros x0 y0 [b c] [b' c'] _ _ Hstep.
    apply render_cell_spec in Hstep as (nc & old & _ & _ & Hnn & _ & Hnew & _).
    split; [exact Hnn|]. simpl. apply lookup_lt_Some in Hnew. exact Hnew.
  - intros x0 y0 x' y' [b c] [b' c'] _ _ _ _ _ [Hnn Hlt] Hstep.
    apply render_cell_spec in Hstep as (nc & old & _ & _ & _ & _ & _ & Hl & _).
    split; [exact Hnn|]. simpl in *. lia.
Qed.

(** The sub-rectangle is not wider than the grid, unless it is empty. *)
Lemma sub_rectangle_fits :
  0 < adjustedWidth -> 0 < adjustedHeight -> adjustedWidth <= width.
Proof using Hshape Hgrid Hloops.
  intros Haw Hah. destruct Hshape as [-> | Heq]; [lia|].
  destruct (first_pass_in_range (adjustedWidth - 1) (adjustedHeight - 1))
    as [Hnn Hlt]; [lia | lia |].
  rewrite Hgrid in Hlt. subst adjustedHeight. nia.
Qed.

(** After the first pass every cell of the sub-rectangle holds its own
    character. *)
Lemma first_pass_settled x y :
  0 <= x < adjustedWidth -> 0 <= y < adjustedHeight ->
  exists c,
    pixel x y = Some c
    /\ cell_index width x y = Some (y * width + x)
    /\ 0 <= y * width + x
    /\ buffer1 !! Z.to_nat (y * width + x) = Some c.
Proof using Hshape Hgrid Hloops.
  intros Hx Hy.
  apply (render_loops_settle width height adjustedWidth adjustedHeight camera
           (fun x y f =>
              exists c,
                pixel x y = Some c
                /\ cell_index width x y = Some (y * width + x)
                /\ 0 <= y * width + x
                /\ fst f !! Z.to_nat (y * width + x) = Some c)
           _ _ Hloops); try assumption.
  - intros x0 y0 [b c] [b' c'] _ _ Hstep.
    apply render_cell_spec in Hstep
      as (nc & old & Hpix & Hidx & Hnn & _ & Hnew & _).
    exists nc. auto.
  - intros x0 y0 x' y' [b c] [b' c'] Hx0 Hy0 Hx' Hy' Hne
           (c0 & Hpix & Hidx & Hnn & Hval) Hstep.
    apply render_cell_spec in Hstep
      as (nc & old & _ & _ & Hnn0 & _ & _ & _ & _ & Hother & _).
    exists c0. repeat split; try assumption.
    assert (Hfit : adjustedWidth <= width) by (apply sub_rectangle_fits; lia).
    assert (Hk : Z.to_nat (y' * width + x') <> Z.to_nat (y0 * width + x0)).
    { intros Heq. apply Z2Nat.inj in Heq; [|lia|lia].
      destruct (row_major_injective width x' y' x0 y0) as [-> ->];
        [lia | lia | exact Heq |]. apply Hne. reflexivity. }
    destruct (Hother _ Hk) as [Hb _]. simpl in *. congruence.
Qed.

(** A second pass over the settled buffer changes nothing. *)
Lemma second_pass_fixed flags :
  for_range adjustedHeight (fun y => for_range adjustedWidth (step y))
    (buffer1, flags) = Some (buffer1, flags).
Proof using Hshape Hgrid Hloops.
  apply for_range_fixed. intros y Hy.
  apply for_range_fixed. intros x Hx.
  destruct (first_pass_settled x y Hx Hy) as (c & Hpix & Hidx & Hnn & Hval).
  unfold render_cell. rewrite Hpix. simpl. rewrite Hidx. simpl.
  unfold vec_get. destruct (Z.leb_spec 0 (y * width + x)); [|lia].
  rewrite Hval. simpl. rewrite Ascii.eqb_refl. reflexivity.
Qed.

End RenderTwice.

(** C7.  Rendering a grid-sized buffer a second time with the same camera
    and grid dimensions, starting from the frame the first call produced,
    returns the first call's buffer again, with no change flag set. *)
Theorem render_twice_no_change
    (width height : Z) (camera : Vec3) (buffer buffer1 : list ascii)
    (changed changed1 : list bool) :
  length buffer = Z.to_nat (width * height) ->
  render width height camera (buffer, changed) = Some (buffer1, changed1) ->
  render width height camera (buffer1, changed1)
  = Some (buffer1, replicate (length changed1) false)
  /\ length buffer1 = length buffer
  /\ length changed1 = length changed.
Proof.
  intros Hgrid Hrender.
  destruct (render_unfold _ _ _ _ _ Hrender) as (aw & ah & Hadj & Hloops).
  destruct (adjusted_shape _ _ _ _ Hadj) as [_ Hshape].
  simpl in Hloops. split; [|split].
  - unfold render. rewrite Hadj. simpl.
    apply (second_pass_fixed width height aw ah camera buffer buffer1
             (clear_flags changed) changed1 Hshape Hgrid Hloops).
  - apply (first_pass_length width height aw ah camera buffer buffer1
             (clear_flags changed) changed1 Hloops).
  - apply (render_loops_inv width height aw ah camera
             (fun f => length (snd f) = length changed) _ _ Hloops).
    + simpl. unfold clear_flags. apply length_replicate.
    + intros x y [b c] [b' c'] _ _ Hlen Hstep.
      apply render_cell_spec in Hstep as (nc & old & _ & _ & _ & _ & _ & _ & Hl & _).
      simpl in *. congruence.
Qed.

Lemma render_twice_no_change_witness :
  render 8 3 camera_start small_frame_rendered
  = Some (fst small_frame_rendered, replicate (length (snd small_frame_rendered)) false).
Proof.
  apply (render_twice_no_change 8 3 camera_start
           (fst small_frame) (fst small_frame_rendered)
           (snd small_frame) (snd small_frame_rendered));
    vm_compute; reflexivity.
Defined.

(** ** C4: the camera ray of a cell *)

(** C4, as amended.  For every cell (x, y), the horizontal view-plane
    coordinate is u = ((x - adjustedWidth/2) / adjustedWidth) multiplied by
    the aspect ratio width/height of the requested grid (not of the
    sub-rectangle), the vertical one is
    v = (adjustedHeight/2 - y) / adjustedHeight, and the cell is shaded along
    the ray from the camera position in the normalized direction of
    (u, v, 1).  On [main]'s grid u and v are zero at the middle cell
    (100, 56) of the sub-rectangle. *)
Theorem camera_ray_through_view_plane
    (width height adjustedWidth adjustedHeight : Z) (camera : Vec3) (x y : Z) :
  let u :=
    F32.mul
      (F32.div (F32.sub (of_int x) (F32.div (of_int adjustedWidth) two))
               (of_int adjustedWidth))
      (F32.div (of_int width) (of_int height)) in
  let v :=
    F32.div (F32.sub (F32.div (of_int adjustedHeight) two) (of_int y))
            (of_int adjustedHeight) in
  cameraRay width height adjustedWidth adjustedHeight camera x y
  = mkRay camera (Vec3Ops.normalize (mkVec3 u v one))
  /\ cellChar width height adjustedWidth adjustedHeight camera x y
     = shadeRay camera (mkRay camera (Vec3Ops.normalize (mkVec3 u v one)))
  /\ (forall buffer changed buffer' changed',
         render_cell width height adjustedWidth adjustedHeight camera y x
           (buffer, changed) = Some (buffer', changed') ->
         buffer' !! Z.to_nat (y * width + x)
         = shadeRay camera (mkRay camera (Vec3Ops.normalize (mkVec3 u v one))))
  /\ view_u 200 250 200 100 = zero
  /\ view_v 112 56 = zero.
Proof.
  intros u v. split; [reflexivity|]. split; [reflexivity|]. split.
  - intros buffer changed buffer' changed' Hstep.
    apply render_cell_spec in Hstep as (nc & old & Hpix & _ & _ & _ & Hnew & _).
    rewrite Hnew, <- Hpix. reflexivity.
  - split; vm_compute; reflexivity.
Qed.

(** C4 as stated fails: on [main]'s grid (200 by 250, sub-rectangle 200 by
    112) the leftmost cell has u = -0.5 * (200/250) = -0.4, not
    -0.5 * (200/112). *)
Lemma view_u_not_sub_rectangle_ratio :
  adjusted 200 250 = Some (200, 112)
  /\ view_u 200 250 200 0 = S754_finite true 13421773 (-25)
  /\ view_u_spec 200 112 0 = S754_finite true 14979657 (-24)
  /\ view_u 200 250 200 0 <> view_u_spec 200 112 0
  /\ cameraDir 200 250 200 112 0 0
     <> mkVec3 (view_u_spec 200 112 0) (view_v 112 0) one.
Proof.
  repeat split; try (vm_compute; reflexivity); vm_compute; discriminate.
Qed.

(** ** Bounds on binary32 rounding *)

Lemma digits2_pos_bounds (m : positive) :
  2 ^ (Zpos (digits2_pos m) - 1) <= Zpos m < 2 ^ Zpos (digits2_pos m).
Proof.
  induction m as [p IH|p IH|]; cbn [digits2_pos].
  - rewrite Pos2Z.inj_succ.
    replace (Z.succ (Zpos (digits2_pos p)) - 1) with (Z.succ (Zpos (digits2_pos p) - 1)) by lia.
    rewrite !Z.pow_succ_r by lia. lia.
  - rewrite Pos2Z.inj_succ.
    replace (Z.succ (Zpos (digits2_pos p)) - 1) with (Z.succ (Zpos (digits2_pos p) - 1)) by lia.
    rewrite !Z.pow_succ_r by lia. lia.
  - cbn. lia.
Qed.

Lemma Zdigits2_upper (m : Z) : 0 <= m -> m < 2 ^ Zdigits2 m.
Proof.
  destruct m as [|p|p]; intros Hm; [cbn; lia | | lia].
  cbn [Zdigits2]. apply digits2_pos_bounds.
Qed.

Lemma Zdigits2_le (m k : Z) : 0 <= m -> 0 <= k -> m < 2 ^ k -> Zdigits2 m <= k.
Proof.
  destruct m as [|p|p]; intros Hm Hk Hlt; [cbn; lia | | lia].
  cbn [Zdigits2].
  destruct (digits2_pos_bounds p) as [Hlo _].
  assert (Hpow : 2 ^ (Zpos (digits2_pos p) - 1) < 2 ^ k) by lia.
  apply Z.pow_lt_mono_r_iff in Hpow; lia.
Qed.

Lemma shr_1_m (r : shr_record) :
  0 <= shr_m r -> shr_m (shr_1 r) = shr_m r / 2.
Proof.
  destruct r as [m rb sb]. cbn [shr_m]. intros Hm.
  rewrite <- Z.div2_div.
  destruct m as [|[p|p|]|p]; try reflexivity; lia.
Qed.

Lemma pow2_xO (p : positive) : 2 ^ Zpos p~0 = 2 ^ Zpos p * 2 ^ Zpos p.
Proof.
  replace (Zpos p~0) with (Zpos p + Zpos p) by lia.
  apply Z.pow_add_r; lia.
Qed.

Lemma pow2_xI (p : positive) : 2 ^ Zpos p~1 = 2 * (2 ^ Zpos p * 2 ^ Zpos p).
Proof.
  replace (Zpos p~1) with (1 + (Zpos p + Zpos p)) by lia.
  rewrite Z.pow_add_r, Z.pow_add_r, Z.pow_1_r by lia. reflexivity.
Qed.

Lemma iter_shr_1_m (p : positive) :
  forall r, 0 <= shr_m r ->
            shr_m (SpecFloat.iter_pos shr_1 p r) = shr_m r / 2 ^ Zpos p.
Proof.
  induction p as [p IH|p IH|]; intros r Hr; cbn [SpecFloat.iter_pos].
  - assert (Hp : 0 < 2 ^ Zpos p) by (apply Z.pow_pos_nonneg; lia).
    assert (H1 : 0 <= shr_m (shr_1 r)).
    { rewrite shr_1_m by assumption. apply Z.div_pos; lia. }
    assert (H2 : 0 <= shr_m (SpecFloat.iter_pos shr_1 p (shr_1 r))).
    { rewrite IH by assumption. apply Z.div_pos; lia. }
    rewrite IH, IH, shr_1_m by assumption.
    rewrite !Z.div_div by lia. rewrite pow2_xI. reflexivity.
  - assert (Hp : 0 < 2 ^ Zpos p) by (apply Z.pow_pos_nonneg; lia).
    assert (H2 : 0 <= shr_m (SpecFloat.iter_pos shr_1 p r)).
    { rewrite IH by assumption. apply Z.div_pos; lia. }
    rewrite IH, IH by assumption.
    rewrite !Z.div_div by lia. rewrite pow2_xO. reflexivity.
  - rewrite shr_1_m by assumption. reflexivity.
Qed.

Lemma shr_spec (mrs : shr_record) (e n : Z) :
  0 <= shr_m mrs ->
  shr_m (fst (shr mrs e n)) = shr_m mrs / 2 ^ Z.max 0 n
  /\ snd (shr mrs e n) = e + Z.max 0 n.
Proof.
  intros Hm. destruct n as [|p|p]; cbn [shr fst snd].
  - rewrite Z.div_1_r. split; [reflexivity | lia].
  - rewrite iter_shr_1_m by assumption. split; [reflexivity | lia].
  - rewrite Z.div_1_r. split; [reflexivity | lia].
Qed.

Lemma shr_record_of_loc_m (m : Z) (l : location) :
  shr_m (shr_record_of_loc m l) = m.
Proof. destruct l as [|[]]; reflexivity. Qed.

(** The first component of [shr_fexp] fits in 24 bits and its exponent
    is the larger of the given one and the format's. *)
Lemma shr_fexp_spec (m e : Z) (l : location) :
  0 <= m ->
  0 <= shr_m (fst (shr_fexp prec emax m e l)) < 2 ^ 24
  /\ shr_m (fst (shr_fexp prec emax m e l)) <= m
  /\ snd (shr_fexp prec emax m e l) = Z.max e (fexp prec emax (Zdigits2 m + e)).
Proof.
  intros Hm. unfold shr_fexp.
  set (n := fexp prec emax (Zdigits2 m + e) - e).
  destruct (shr_spec (shr_record_of_loc m l) e n) as [Hs He].
  { rewrite shr_record_of_loc_m. exact Hm. }
  rewrite Hs, He, shr_record_of_loc_m.
  pose proof (Zdigits2_upper m Hm) as Hd.
  assert (Hpos : 0 < 2 ^ Z.max 0 n) by (apply Z.pow_pos_nonneg; lia).
  assert (Hn : Zdigits2 m - 24 <= n).
  { unfold n, fexp, prec. lia. }
  assert (Hdn : 0 <= Zdigits2 m).
  { destruct m as [|p|p]; cbn; lia. }
  split; [split|split].
  - apply Z.div_pos; lia.
  - apply Z.div_lt_upper_bound; [lia|].
    apply Z.lt_le_trans with (1 := Hd).
    rewrite <- Z.pow_add_r by lia.
    apply Z.pow_le_mono_r; lia.
  - apply Z.div_le_upper_bound; [lia|]. nia.
  - unfold n. lia.
Qed.

Lemma round_nearest_even_bounds (m : Z) (l : location) :
  m <= round_nearest_even m l <= m + 1.
Proof.
  unfold round_nearest_even.
  destruct l as [|[]]; try destruct (Z.even m); lia.
Qed.

(** The shape of a rounded result: its sign is the given one, its
    mantissa fits in 24 bits, and its exponent is at most one above the
    first shift's; it overflows only above the largest exponent. *)
Lemma binary_round_aux_shape (s : bool) (mx ex : Z) (lx : location) :
  0 <= mx ->
  let r := binary_round_aux prec emax s mx ex lx in
  let bound := Z.max (Z.max ex (Zdigits2 mx + ex - 24)) (-149) + 1 in
  r = S754_zero s
  \/ (r = S754_infinity s /\ 104 < bound)
  \/ exists m e,
       r = S754_finite s m e /\ Zpos m < 2 ^ 24 /\ e <= bound.
Proof.
  intros Hmx r bound. subst r bound. unfold binary_round_aux.
  destruct (shr_fexp_spec mx ex lx Hmx) as ([H1lo H1hi] & H1le & H1e).
  destruct (shr_fexp prec emax mx ex lx) as [mrs1 e1]. cbn [fst snd] in *.
  set (m2 := round_nearest_even (shr_m mrs1) (loc_of_shr_record mrs1)).
  pose proof (round_nearest_even_bounds (shr_m mrs1) (loc_of_shr_record mrs1)) as Hm2.
  fold m2 in Hm2.
  assert (Hm2nn : 0 <= m2) by lia.
  destruct (shr_fexp_spec m2 e1 loc_Exact Hm2nn) as ([H3lo H3hi] & H3le & H3e).
  destruct (shr_fexp prec emax m2 e1 loc_Exact) as [mrs3 e3]. cbn [fst snd] in *.
  assert (Hd2 : Zdigits2 m2 <= 25).
  { apply Zdigits2_le; [lia | lia |].
    replace (2 ^ 25) with (2 * 2 ^ 24) by reflexivity. lia. }
  assert (He3 : e3 <= Z.max (Z.max ex (Zdigits2 mx + ex - 24)) (-149) + 1).
  { rewrite H3e, H1e. unfold fexp, emin, prec, emax. lia. }
  destruct (shr_m mrs3) as [|m3|m3] eqn:Hm3; [left; reflexivity | | lia].
  destruct (Z.leb_spec e3 (emax - prec)) as [Hle|Hgt].
  - right. right. exists m3, e3. split; [reflexivity|]. split; [lia | exact He3].
  - right. left. split; [reflexivity|]. unfold emax, prec in Hgt. lia.
Qed.

(** Truncation to [int] of a rounded result with a negative exponent. *)
Lemma to_int_round_aux (mx ex : Z) (lx : location) :
  0 <= mx ->
  Z.max (Z.max ex (Zdigits2 mx + ex - 24)) (-149) + 1 <= 0 ->
  exists i,
    to_int (binary_round_aux prec emax false mx ex lx) = Some i /\ 0 <= i < 2 ^ 24.
Proof.
  intros Hmx Hex.
  destruct (binary_round_aux_shape false mx ex lx Hmx)
    as [Hr|[[Hr Hb]|(m & e & Hr & Hm & He)]].
  - rewrite Hr. exists 0. split; [reflexivity | lia].
  - lia.
  - rewrite Hr. unfold to_int, truncZ. cbn [cond_Zopp].
    assert (Hpow : 0 < 2 ^ (- e)) by (apply Z.pow_pos_nonneg; lia).
    assert (Hsh : 0 <= Z.shiftl (Zpos m) e <= Zpos m).
    { rewrite Z.shiftl_div_pow2 by lia. split.
      - apply Z.div_pos; lia.
      - apply Z.div_le_upper_bound; [lia | nia]. }
    exists (Z.shiftl (Zpos m) e).
    assert (Hok : int_ok (Z.shiftl (Zpos m) e) = true).
    { apply int_ok_spec. unfold INT_MIN, INT_MAX.
      assert (2 ^ 24 < 2 ^ 31) by (apply Z.pow_lt_mono_r; lia). lia. }
    rewrite Hok. split; [reflexivity | lia].
Qed.

(** ** The clamped intensity *)

Lemma valid_mantissa (s : bool) (m : positive) (e : Z) :
  valid (S754_finite s m e) = true ->
  Zpos m < 2 ^ 24 /\ (e = -23 -> 2 ^ 23 <= Zpos m).
Proof.
  unfold valid, valid_binary, bounded, canonical_mantissa.
  rewrite andb_true_iff, Z.eqb_eq. intros [Hc _].
  unfold fexp, emin, prec, emax in Hc.
  destruct (digits2_pos_bounds m) as [Hlo Hhi].
  split.
  - assert (Hd : Zpos (digits2_pos m) <= 24) by lia.
    apply Z.lt_le_trans with (1 := Hhi). apply Z.pow_le_mono_r; lia.
  - intros ->. assert (Hd : Zpos (digits2_pos m) = 24) by lia.
    rewrite Hd in Hlo. exact Hlo.
Qed.

Lemma clamp01_clamped (t : float) :
  valid t = true -> is_nan t = false -> clamped (clamp01 t).
Proof.
  intros Hv Hn. unfold clamp01, F32.ltb, SFltb. rewrite zero_eq, one_eq.
  destruct t as [s|s| |s m e]; cbv beta iota delta [SFcompare].
  - apply clamped_zero.
  - destruct s; [apply clamped_zero | apply clamped_one].
  - discriminate.
  - destruct s; [apply clamped_zero|].
    destruct (valid_mantissa _ _ _ Hv) as [Hm H23].
    destruct (Z.compare_spec (-23) e) as [He|He|He].
    + subst e. specialize (H23 eq_refl).
      destruct (Pos.compare_cont Eq 8388608 m) eqn:Hc.
      * apply Pos.compare_eq in Hc. subst m. apply clamped_one.
      * apply clamped_one.
      * exfalso. change (Pos.compare_cont Eq 8388608 m) with (Pos.compare 8388608 m) in Hc.
        apply Pos.compare_gt_iff in Hc.
        change (2 ^ 23) with (Zpos 8388608) in H23.
        apply Pos2Z.pos_lt_pos in Hc.
        exact (Z.lt_irrefl _ (Z.lt_le_trans _ _ _ Hc H23)).
    + apply clamped_one.
    + apply clamped_fraction; [exact Hm | lia].
Qed.

Lemma six_eq : of_int last_shade = S754_finite false 12582912 (-21).
Proof. reflexivity. Qed.

(** [static_cast<int>(t * 6)] is defined and not negative for a clamped
    [t]. *)
Lemma clamped_shade_index (t : float) :
  clamped t ->
  exists i, to_int (F32.mul t (of_int last_shade)) = Some i /\ 0 <= i.
Proof.
  intros [s| |m e Hm He]; rewrite six_eq.
  - exists 0. split; [reflexivity | lia].
  - exists 6. split; [reflexivity | lia].
  - unfold F32.mul, SFmul. cbn [xorb].
    destruct (to_int_round_aux (Zpos (m * 12582912)) (e + -21) loc_Exact)
      as (i & Hi & Hr); [lia | | exists i; split; [exact Hi | lia]].
    assert (Hd : Zdigits2 (Zpos (m * 12582912)) <= 48).
    { apply Zdigits2_le; [lia | lia |].
      change (2 ^ 24) with 16777216 in Hm.
      change (2 ^ 48) with (16777216 * 16777216). nia. }
    lia.
Qed.

(** The checkerboard test of the synthetic point [(t, 0, 0)]. *)
Lemma clamped_floor (t : float) :
  clamped t ->
  to_int (F32.floor t) = Some (if F32.ltb t one then 0 else 1).
Proof.
  intros [s| |m e Hm He].
  - destruct s; reflexivity.
  - reflexivity.
  - assert (Hlt : F32.ltb (S754_finite false m e) one = true).
    { unfold F32.ltb, SFltb. rewrite one_eq. cbv beta iota delta [SFcompare].
      destruct (Z.compare_spec e (-23)); [lia | reflexivity | lia]. }
    rewrite Hlt. unfold F32.floor.
    destruct (Z.leb_spec 0 e) as [H0|H0]; [lia|]. cbn [cond_Zopp].
    assert (Hsmall : Zpos m / 2 ^ (- e) = 0).
    { apply Z.div_small. split; [lia|].
      apply Z.lt_le_trans with (1 := Hm). apply Z.pow_le_mono_r; lia. }
    rewrite Hsmall. reflexivity.
Qed.

Lemma clamped_checker (t : float) :
  clamped t ->
  isCheckerboard (mkVec3 t zero zero) = Some (F32.ltb t one).
Proof.
  intros Hc. unfold isCheckerboard. cbn [vx vz].
  rewrite (clamped_floor t Hc).
  destruct (F32.ltb t one); reflexivity.
Qed.

Lemma shade_at_in_range (i : Z) :
  0 <= i <= 6 -> exists c, String.get (Z.to_nat i) shades = Some c /\ shade_at i = Some c.
Proof.
  intros Hi. unfold shade_at. destruct (Z.leb_spec 0 i); [|lia].
  assert (Hcases : i = 0 \/ i = 1 \/ i = 2 \/ i = 3 \/ i = 4 \/ i = 5 \/ i = 6) by lia.
  destruct Hcases as [-> | [-> | [-> | [-> | [-> | [-> | ->]]]]]];
    eexists; split; reflexivity.
Qed.

(** ** C3: reflective shading *)

(** C3, as amended.  For every intensity value [t] (a binary32 number, not
    NaN), [getShade(t, true)] is
    [palette[min(trunc(clamp(t,0,1) * 6), 6)]]: the clamped intensity is
    mapped to a palette index by truncation (not by rounding to the
    nearest), and the index is always within 0..6. *)
Theorem getShade_reflective_truncates (t : float) :
  valid t = true -> is_nan t = false ->
  exists i c,
    to_int (F32.mul (clamp01 t) (of_int last_shade)) = Some i
    /\ 0 <= Z.min i last_shade <= 6
    /\ String.get (Z.to_nat (Z.min i last_shade)) shades = Some c
    /\ getShade t true = Some c.
Proof.
  intros Hv Hn.
  destruct (clamped_shade_index _ (clamp01_clamped t Hv Hn)) as (i & Hi & Hnn).
  assert (Hr : 0 <= Z.min i last_shade <= 6).
  { change last_shade with 6. lia. }
  destruct (shade_at_in_range _ Hr) as (c & Hget & Hat).
  exists i, c. repeat split; try assumption; try lia.
  unfold getShade. rewrite Hi. simpl. exact Hat.
Qed.

Lemma getShade_reflective_truncates_witness :
  exists i c,
    to_int (F32.mul (clamp01 (F32.div (of_int 5) (of_int 16))) (of_int last_shade)) = Some i
    /\ 0 <= Z.min i last_shade <= 6
    /\ String.get (Z.to_nat (Z.min i last_shade)) shades = Some c
    /\ getShade (F32.div (of_int 5) (of_int 16)) true = Some c.
Proof.
  apply (getShade_reflective_truncates (F32.div (of_int 5) (of_int 16)));
    reflexivity.
Defined.

(** Intensities outside [0, 1] shade as 0 and as 1. *)
Example getShade_clamps_outside :
  getShade (of_int (-5)) true = getShade zero true
  /\ getShade zero true = Some " "%char
  /\ getShade (of_int 50) true = getShade one true
  /\ getShade one true = Some "*"%char.
Proof. repeat split. Qed.

(** C3 as stated fails: for t = 5/16 the product t * 6 = 1.875 is truncated
    to index 1 (a period), where rounding to the nearest index gives 2 (a
    colon). *)
Lemma getShade_not_rounded :
  F32.mul (clamp01 (F32.div (of_int 5) (of_int 16))) (of_int last_shade)
  = F32.div (of_int 15) (of_int 8)
  /\ getShade (F32.div (of_int 5) (of_int 16)) true = Some "."%char
  /\ getShade_round_spec (F32.div (of_int 5) (of_int 16)) = Some ":"%char
  /\ getShade (F32.div (of_int 5) (of_int 16)) true
     <> getShade_round_spec (F32.div (of_int 5) (of_int 16)).
Proof.
  repeat split; try reflexivity. vm_compute. discriminate.
Qed.

(** ** C10: shading without reflection *)



(** ** Exact conversions *)

Lemma iter_xO_value (p k : positive) :
  Zpos (Pos.iter xO p k) = Zpos p * 2 ^ Zpos k.
Proof.
  induction k as [|k IH] using Pos.peano_ind.
  - cbn [Pos.iter]. rewrite Z.pow_1_r. lia.
  - rewrite Pos.iter_succ, Pos2Z.inj_succ, Z.pow_succ_r by lia.
    rewrite Pos2Z.inj_xO, IH. lia.
Qed.

Lemma iter_xO_digits (p k : positive) :
  Zpos (digits2_pos (Pos.iter xO p k)) = Zpos (digits2_pos p) + Zpos k.
Proof.
  induction k as [|k IH] using Pos.peano_ind.
  - cbn [Pos.iter digits2_pos]. lia.
  - rewrite Pos.iter_succ. cbn [digits2_pos]. rewrite !Pos2Z.inj_succ, IH. lia.
Qed.

(** A 24-bit mantissa with an exponent of the format is not rounded. *)
Lemma binary_round_aux_exact (s : bool) (m : positive) (e : Z) :
  Zpos (digits2_pos m) = 24 -> -149 <= e <= 104 ->
  binary_round_aux prec emax s (Zpos m) e loc_Exact = S754_finite s m e.
Proof.
  intros Hd He.
  assert (Hshift : shr_fexp prec emax (Zpos m) e loc_Exact
                   = (Build_shr_record (Zpos m) false false, e)).
  { unfold shr_fexp. cbn [Zdigits2]. rewrite Hd.
    replace (fexp prec emax (24 + e) - e) with 0
      by (unfold fexp, emin, prec, emax; lia).
    reflexivity. }
  unfold binary_round_aux. rewrite Hshift.
  cbn [shr_m loc_of_shr_record round_nearest_even]. rewrite Hshift.
  cbn [shr_m].
  destruct (Z.leb_spec e (emax - prec)) as [_|Hgt]; [reflexivity|].
  unfold emax, prec in Hgt. lia.
Qed.

(** An [int] below 2^24 in magnitude is converted to [float] exactly. *)
Lemma of_int_exact (z : Z) :
  - 2 ^ 24 < z < 2 ^ 24 -> truncZ (of_int z) = Some z.
Proof.
  intros Hz. unfold of_int, binary_normalize.
  assert (Hrec : forall (s : bool) (p : positive),
             Zpos p < 2 ^ 24 ->
             truncZ (binary_round prec emax s p 0) = Some (cond_Zopp s (Zpos p))).
  { intros s p Hp. unfold binary_round, shl_align.
    destruct (digits2_pos_bounds p) as [Hlo Hhi].
    assert (Hd : 1 <= Zpos (digits2_pos p) <= 24).
    { split; [lia|]. apply (Zdigits2_le (Zpos p)); lia. }
    replace (fexp prec emax (Zpos (digits2_pos p) + 0) - 0)
      with (Zpos (digits2_pos p) - 24)
      by (unfold fexp, emin, prec, emax; lia).
    replace (fexp prec emax (Zpos (digits2_pos p) + 0))
      with (Zpos (digits2_pos p) - 24)
      by (unfold fexp, emin, prec, emax; lia).
    destruct (Zpos (digits2_pos p) - 24) as [|k|k] eqn:Hk; [ | lia | ].
    - rewrite binary_round_aux_exact by lia. reflexivity.
    - rewrite binary_round_aux_exact.
      + cbn [truncZ]. f_equal. f_equal.
        rewrite Z.shiftl_div_pow2 by lia. rewrite iter_xO_value.
        change (- Zneg k) with (Zpos k).
        apply Z.div_mul. apply Z.pow_nonzero; lia.
      + rewrite iter_xO_digits. lia.
      + lia. }
  destruct z as [|p|p].
  - reflexivity.
  - apply (Hrec false p). lia.
  - apply (Hrec true p). lia.
Qed.

(** [static_cast<int>(std::floor(x))] is the mathematical floor of [x],
    when that is an [int]. *)
Lemma to_int_floor (x : float) (z : Z) :
  small x -> floorZ x = Some z -> int_ok z = true ->
  to_int (F32.floor x) = Some z.
Proof.
  destruct x as [s|s| |s m e]; cbn [small floorZ F32.floor]; intros Hm Hz Hok;
    try discriminate.
  - injection Hz as <-. reflexivity.
  - injection Hz as <-.
    destruct (Z.leb_spec 0 e) as [He|He].
    + unfold to_int, truncZ. rewrite Z.shiftl_mul_pow2 by lia. rewrite Hok. reflexivity.
    + assert (Hpow : 0 < 2 ^ (- e)) by (apply Z.pow_pos_nonneg; lia).
      assert (Hbound : - 2 ^ 24 < cond_Zopp s (Zpos m) / 2 ^ (- e) < 2 ^ 24).
      { destruct s; cbn [cond_Zopp].
        - split.
          + apply Z.lt_le_trans with (- Zpos m); [lia|].
            apply Z.div_le_lower_bound; [lia | nia].
          + apply Z.le_lt_trans with 0; [|lia].
            apply Z.div_le_upper_bound; [lia | lia].
        - split.
          + apply Z.lt_le_trans with 0; [lia|]. apply Z.div_pos; lia.
          + apply Z.le_lt_trans with (Zpos m); [|lia].
            apply Z.div_le_upper_bound; [lia | nia]. }
      destruct (Z.eqb_spec (cond_Zopp s (Zpos m) / 2 ^ (- e)) 0) as [H0|H0].
      * rewrite H0. reflexivity.
      * unfold to_int. rewrite (of_int_exact _ Hbound), Hok. reflexivity.
Qed.

Lemma valid_small (x : float) : valid x = true -> small x.
Proof.
  destruct x as [s|s| |s m e]; cbn [small]; auto.
  intros Hv. apply (valid_mantissa _ _ _ Hv).
Qed.

Lemma binary_round_aux_small (s : bool) (mx ex : Z) (lx : location) :
  0 <= mx -> small (binary_round_aux prec emax s mx ex lx).
Proof.
  intros Hmx.
  destruct (binary_round_aux_shape s mx ex lx Hmx)
    as [Hr|[[Hr _]|(m & e & Hr & Hm & _)]]; rewrite Hr; cbn [small]; auto.
Qed.

Lemma mul_small (x y : float) : small (F32.mul x y).
Proof.
  unfold F32.mul, SFmul.
  destruct x as [sx|sx| |sx mx ex], y as [sy|sy| |sy my ey]; cbn [small]; auto.
  apply binary_round_aux_small. lia.
Qed.

Lemma binary_normalize_small (z e : Z) (s : bool) :
  small (binary_normalize prec emax z e s).
Proof.
  unfold binary_normalize, binary_round.
  destruct z as [|p|p]; cbn [small]; auto.
  - destruct (shl_align p e _) as [mz ez]. apply binary_round_aux_small. lia.
  - destruct (shl_align p e _) as [mz ez]. apply binary_round_aux_small. lia.
Qed.

Lemma add_small (x y : float) : small x -> small y -> small (F32.add x y).
Proof.
  unfold F32.add, SFadd. intros Hx Hy.
  destruct x as [sx|sx| |sx mx ex], y as [sy|sy| |sy my ey]; cbn [small]; auto;
    try (destruct sx, sy; cbn [small]; auto; fail).
  apply binary_normalize_small.
Qed.

(** The floor point of a reflected ray has binary32 coordinates when the
    camera has. *)
Lemma hitFloorPoint_small (ray : Ray) (h : Hit) :
  small (vx (origin ray)) -> small (vz (origin ray)) ->
  intersect sphere ray = Some h ->
  small (vx (hitFloorPoint ray h)) /\ small (vz (hitFloorPoint ray h)).
Proof.
  intros Hx Hz Hhit. rewrite intersect_unfold in Hhit.
  destruct (_ || _); [discriminate|]. injection Hhit as <-.
  unfold hitFloorPoint. cbn [hit_point Vec3Ops.add Vec3Ops.scale vx vz].
  split; apply add_small; try apply mul_small; apply add_small;
    try apply mul_small; assumption.
Qed.

(** ** C6: a sphere hit whose reflection reaches the floor *)

Lemma floor_reflection_cell
    (width height adjustedWidth adjustedHeight : Z) (camera : Vec3) (x y : Z)
    (h : Hit) (checkerX checkerZ : Z) :
  let ray := cameraRay width height adjustedWidth adjustedHeight camera x y in
  valid (vx camera) = true -> valid (vz camera) = true ->
  intersect sphere ray = Some h ->
  F32.ltb zero (hitFloorDist ray h) = true ->
  floorZ (vx (hitFloorPoint ray h)) = Some checkerX ->
  floorZ (vz (hitFloorPoint ray h)) = Some checkerZ ->
  int_ok checkerX = true -> int_ok checkerZ = true ->
  int_ok (checkerX + checkerZ) = true ->
  cellChar width height adjustedWidth adjustedHeight camera x y
  = Some (if Z.even (checkerX + checkerZ) then "*"%char else " "%char).
Proof.
  intros ray Hvx Hvz Hhit Hfloor Hx Hz Hokx Hokz Hsum.
  destruct (hitFloorPoint_small ray h) as [Hsx Hsz];
    [apply valid_small; exact Hvx | apply valid_small; exact Hvz | exact Hhit |].
  unfold cellChar, shadeRay. fold ray. rewrite Hhit, Hfloor.
  unfold isCheckerboard.
  rewrite (to_int_floor _ _ Hsx Hx Hokx), (to_int_floor _ _ Hsz Hz Hokz).
  simpl. rewrite Hsum. simpl.
  rewrite getShade_one, rem2_even. reflexivity.
Qed.

(** C6, as amended.  Take a cell whose camera ray hits the sphere at
    [hitPoint] with normal [normal].  The reflected vector is
    direction - (normal * 2) * (direction . normal); [reflectionDir] is
    that vector divided by its magnitude (the direction the reflection ray
    stores); floorDist = -hitPoint.y / reflectionDir.y and
    floorPoint = hitPoint + reflectionDir * floorDist, all in binary32
    arithmetic.  When floorDist > 0, and floor(floorPoint.x),
    floor(floorPoint.z) and their sum are [int] values, the cell's character
    is an asterisk when floor(floorPoint.x) + floor(floorPoint.z) is even and
    a space when it is odd. *)
Theorem floor_reflection_checkerboard
    (width height adjustedWidth adjustedHeight : Z) (camera : Vec3) (x y : Z)
    (h : Hit) (checkerX checkerZ : Z) :
  let ray := cameraRay width height adjustedWidth adjustedHeight camera x y in
  let hitPoint := hit_point h in
  let normal := hit_normal h in
  let dot := fun p q : Vec3 =>
    F32.add (F32.add (F32.mul (vx p) (vx q)) (F32.mul (vy p) (vy q)))
            (F32.mul (vz p) (vz q)) in
  let along := dot (direction ray) normal in
  let reflected :=
    mkVec3
      (F32.sub (vx (direction ray)) (F32.mul (F32.mul (vx normal) two) along))
      (F32.sub (vy (direction ray)) (F32.mul (F32.mul (vy normal) two) along))
      (F32.sub (vz (direction ray)) (F32.mul (F32.mul (vz normal) two) along)) in
  let m := F32.sqrt (dot reflected reflected) in
  let reflectionDir :=
    mkVec3 (F32.div (vx reflected) m) (F32.div (vy reflected) m)
           (F32.div (vz reflected) m) in
  let floorDist := F32.div (F32.neg (vy hitPoint)) (vy reflectionDir) in
  let floorPoint :=
    mkVec3 (F32.add (vx hitPoint) (F32.mul (vx reflectionDir) floorDist))
           (F32.add (vy hitPoint) (F32.mul (vy reflectionDir) floorDist))
           (F32.add (vz hitPoint) (F32.mul (vz reflectionDir) floorDist)) in
  valid (vx camera) = true -> valid (vz camera) = true ->
  intersect sphere ray = Some h ->
  F32.ltb zero floorDist = true ->
  floorZ (vx floorPoint) = Some checkerX ->
  floorZ (vz floorPoint) = Some checkerZ ->
  int_ok checkerX = true -> int_ok checkerZ = true ->
  int_ok (checkerX + checkerZ) = true ->
  cellChar width height adjustedWidth adjustedHeight camera x y
  = Some (if Z.even (checkerX + checkerZ) then "*"%char else " "%char).
Proof.
  intros ray hp n dt al refl m rdir fd fp.
  assert (Hfd : fd = hitFloorDist ray h).
  { unfold fd, rdir, m, refl, al, dt, n, hp.
    unfold hitFloorDist, reflectionRay, Ray_new, reflectionDir.
    unfold Vec3Ops.normalize, Vec3Ops.mag, Vec3Ops.sub, Vec3Ops.scale, Vec3Ops.dot.
    cbn [vx vy vz origin direction]. reflexivity. }
  assert (Hfp : fp = hitFloorPoint ray h).
  { unfold fp. rewrite Hfd. unfold rdir, m, refl, al, dt, n, hp.
    unfold hitFloorPoint, reflectionRay, Ray_new, reflectionDir.
    unfold Vec3Ops.add, Vec3Ops.normalize, Vec3Ops.mag, Vec3Ops.sub,
      Vec3Ops.scale, Vec3Ops.dot.
    cbn [vx vy vz origin direction]. reflexivity. }
  rewrite Hfd, Hfp. apply floor_reflection_cell.
Qed.

Lemma floor_reflection_checkerboard_witness :
  cellChar 200 250 200 112 camera_start 100 50
  = Some (if Z.even (0 + 1) then "*"%char else " "%char).
Proof.
  apply (floor_reflection_checkerboard 200 250 200 112 camera_start 100 50
           start_lower_hit 0 1); vm_compute; reflexivity.
Defined.

(** C6 as stated fails for a reflection that leaves the sphere almost
    level.  From the camera (1 - 33 * 2^-24, 2 - 2^-23, -6) the ray of the
    centre cell of [main]'s grid, of direction (0, 0, 1), grazes the side of
    the sphere; the reflected direction has y = -11861974 * 2^-54, so
    floorDist = 11864592 * 2^8 is positive and floorPoint.z is
    11864411 * 2^8 = 3037289216, above [INT_MAX]: the conversion
    [static_cast<int>] of [isCheckerboard] is undefined and the cell has no
    defined character. *)
Lemma floor_reflection_beyond_int :
  let ray := cameraRay 200 250 200 112 camera_graze 100 56 in
  direction ray = vec3_of_ints 0 0 1
  /\ exists h,
       intersect sphere ray = Some h
       /\ vy (direction (reflectionRay ray h)) = S754_finite true 11861974 (-54)
       /\ hitFloorDist ray h
          = F32.div (F32.neg (vy (hit_point h))) (vy (direction (reflectionRay ray h)))
       /\ hitFloorDist ray h = S754_finite false 11864592 8
       /\ F32.ltb zero (hitFloorDist ray h) = true
       /\ hitFloorPoint ray h
          = Vec3Ops.add (hit_point h)
              (Vec3Ops.scale (direction (reflectionRay ray h)) (hitFloorDist ray h))
       /\ floorZ (vx (hitFloorPoint ray h)) = Some 16777182
       /\ floorZ (vz (hitFloorPoint ray h)) = Some 3037289216
       /\ INT_MAX < 3037289216
       /\ to_int (F32.floor (vz (hitFloorPoint ray h))) = None
       /\ isCheckerboard (hitFloorPoint ray h) = None
       /\ cellChar 200 250 200 112 camera_graze 100 56 = None.
Proof.
  split; [reflexivity|].
  exists (main_hit camera_graze 100 56). vm_compute. auto 15.
Qed.

(** ** Numbers that are at least one *)








Lemma mul_self_nonneg (u : float) : nonneg (F32.mul u u).
Proof.
  unfold F32.mul, SFmul. destruct u as [s|s| |s m e].
  - exact I.
  - destruct s; reflexivity.
  - exact I.
  - replace (xorb s s) with false by (destruct s; reflexivity).
    destruct (binary_round_aux_shape false (Zpos (m * m)) (e + e) loc_Exact)
      as [Hr|[[Hr _]|(m' & e' & Hr & _)]]; [lia | | |];
      rewrite Hr; cbn [nonneg]; auto.
Qed.

Lemma binary_normalize_nonneg (z e : Z) :
  0 <= z -> nonneg (binary_normalize prec emax z e false).
Proof.
  intros Hz. unfold binary_normalize, binary_round.
  destruct z as [|p|p]; [exact I | | lia].
  destruct (shl_align p e _) as [mz ez].
  destruct (binary_round_aux_shape false (Zpos mz) ez loc_Exact)
    as [Hr|[[Hr _]|(m' & e' & Hr & _)]]; [lia | | |];
    rewrite Hr; cbn [nonneg]; auto.
Qed.


Lemma add_nonneg (x y : float) : nonneg x -> nonneg y -> nonneg (F32.add x y).
Proof.
  unfold F32.add, SFadd.
  destruct x as [sx|sx| |sx mx ex], y as [sy|sy| |sy my ey]; cbn [nonneg];
    intros Hx Hy; subst; try exact I; try reflexivity;
    try (destruct sx; cbn [nonneg]; auto; fail);
    try (destruct sx, sy; cbn [nonneg]; auto; fail).
  apply binary_normalize_nonneg. cbn [cond_Zopp]. lia.
Qed.




(** ** C8: the vectors handed to [normalize] *)



(** * Further properties *)

(** ** Vector arithmetic *)

Lemma F32_mul_comm (x y : float) : F32.mul x y = F32.mul y x.
Proof.
  unfold F32.mul, SFmul.
  destruct x as [sx|sx| |sx mx ex], y as [sy|sy| |sy my ey];
    try reflexivity; try (rewrite xorb_comm; reflexivity).
  rewrite xorb_comm, Pos.mul_comm, Z.add_comm. reflexivity.
Qed.

Lemma F32_add_comm (x y : float) : F32.add x y = F32.add y x.
Proof.
  unfold F32.add, SFadd.
  destruct x as [sx|sx| |sx mx ex], y as [sy|sy| |sy my ey];
    try reflexivity; try (destruct sx, sy; reflexivity).
  rewrite (Z.min_comm ey ex), Z.add_comm. reflexivity.
Qed.

(** X1.  Rounding does not break the symmetry of the dot product and of
    vector addition: for all vectors, [a.dot(v)] and [v.dot(a)] are the
    same binary32 value (the same number, the same signed zero, the same
    infinity, or both not a number), and so are the components of [a + v]
    and [v + a].  The sign and payload of a NaN are not part of this
    model, which has one NaN. *)
Theorem dot_and_add_symmetric (a v : Vec3) :
  Vec3Ops.dot a v = Vec3Ops.dot v a /\ Vec3Ops.add a v = Vec3Ops.add v a.
Proof.
  split.
  - unfold Vec3Ops.dot.
    rewrite (F32_mul_comm (vx a)), (F32_mul_comm (vy a)), (F32_mul_comm (vz a)).
    reflexivity.
  - unfold Vec3Ops.add.
    rewrite (F32_add_comm (vx a)), (F32_add_comm (vy a)), (F32_add_comm (vz a)).
    reflexivity.
Qed.

Lemma nonneg_not_below_zero (x : float) : nonneg x -> F32.ltb x zero = false.
Proof.
  destruct x as [s|s| |s m e]; cbn [nonneg]; intros Hx; subst; reflexivity.
Qed.

Lemma sqrt_nonneg (x : float) : nonneg (F32.sqrt x).
Proof.
  unfold F32.sqrt, SFsqrt.
  destruct x as [s|s| |s m e]; cbn [nonneg]; auto.
  - destruct s; cbn [nonneg]; auto.
  - destruct s; [exact I|].
    unfold SFsqrt_core_binary.
    pose proof (Z.sqrtrem_sqrt
                  (match e - 2 * Z.min (fexp prec emax (Z.div2 (Zdigits2 (Zpos m) + e + 1)))
                                       (Z.div2 e) with
                   | Zpos _ => Z.shiftl (Zpos m)
                                 (e - 2 * Z.min (fexp prec emax
                                                   (Z.div2 (Zdigits2 (Zpos m) + e + 1)))
                                                (Z.div2 e))
                   | 0 => Zpos m
                   | Zneg _ => 0
                   end)) as Hq.
    destruct (Z.sqrtrem _) as [q r]. cbn [fst] in Hq.
    assert (Hq0 : 0 <= q) by (rewrite Hq; apply Z.sqrt_nonneg).
    destruct (binary_round_aux_shape false q
                (Z.min (fexp prec emax (Z.div2 (Zdigits2 (Zpos m) + e + 1))) (Z.div2 e))
                (if r =? 0 then loc_Exact
                 else loc_Inexact (if r <=? q then Lt else Gt)) Hq0)
      as [Hr|[[Hr _]|(m' & e' & Hr & _)]]; rewrite Hr; cbn [nonneg]; auto.
Qed.

(** X2.  The dot product of a vector with itself and the magnitude that
    [normalize] computes are never negative: the tests [a.dot(a) < 0] and
    [mag < 0] are false for every vector, so [normalize] never takes the
    square root of a negative number. *)
Theorem dot_self_never_negative (a : Vec3) :
  F32.ltb (Vec3Ops.dot a a) zero = false
  /\ F32.ltb (Vec3Ops.mag a) zero = false
  /\ Vec3Ops.mag a = F32.sqrt (Vec3Ops.dot a a).
Proof.
  assert (Hd : nonneg (Vec3Ops.dot a a)).
  { unfold Vec3Ops.dot. repeat apply add_nonneg; apply mul_self_nonneg. }
  split; [apply nonneg_not_below_zero; exact Hd|].
  split; [apply nonneg_not_below_zero; apply sqrt_nonneg | reflexivity].
Qed.

(** X3.  [normalize] of a zero vector (zeros of either sign) divides zero
    by zero: every component of the result is NaN. *)
Theorem normalize_zero_vector_nan (a : Vec3) :
  Vec3Ops.is_zero a = true ->
  Vec3Ops.normalize a = mkVec3 S754_nan S754_nan S754_nan.
Proof.
  destruct a as [x y z]. unfold Vec3Ops.is_zero. cbn [vx vy vz].
  rewrite !andb_true_iff. intros [[Hx Hy] Hz].
  destruct x as [sx|sx| |sx mx ex]; try discriminate.
  destruct y as [sy|sy| |sy my ey]; try discriminate.
  destruct z as [sz|sz| |sz mz ez]; try discriminate.
  destruct sx, sy, sz; reflexivity.
Qed.

Lemma normalize_zero_vector_nan_witness :
  Vec3Ops.normalize (mkVec3 zero (F32.neg zero) zero)
  = mkVec3 S754_nan S754_nan S754_nan.
Proof.
  apply (normalize_zero_vector_nan (mkVec3 zero (F32.neg zero) zero)).
  reflexivity.
Defined.

(** ** [intersect] on a discriminant that is not a number *)

Lemma sub_nan_r (x : float) : F32.sub x S754_nan = S754_nan.
Proof. destruct x; reflexivity. Qed.

(** X4.  When the discriminant is NaN (a camera so far away that
    [oc.dot(oc)] overflows, for example), neither [discriminant < 0] nor
    [t <= 0] holds, so [intersect] reports a hit, at a distance that is
    NaN. *)
Theorem intersect_nan_discriminant_hits (s : Sphere) (ray : Ray) :
  is_nan (discriminant s ray) = true ->
  exists h,
    intersect s ray = Some h
    /\ is_nan (hit_t h) = true
    /\ hit_point h = Vec3Ops.add (origin ray) (Vec3Ops.scale (direction ray) S754_nan).
Proof.
  intros Hnan.
  assert (Hd : discriminant s ray = S754_nan).
  { destruct (discriminant s ray); try discriminate. reflexivity. }
  assert (Ht : near_root s ray = S754_nan).
  { unfold near_root. rewrite Hd.
    change (F32.sqrt S754_nan) with S754_nan. rewrite sub_nan_r. reflexivity. }
  rewrite intersect_unfold, Hd, Ht.
  eexists. split; [reflexivity|]. split; reflexivity.
Qed.

Lemma intersect_nan_discriminant_hits_witness :
  exists h,
    intersect sphere (main_ray camera_remote 0 111) = Some h
    /\ is_nan (hit_t h) = true
    /\ hit_point h
       = Vec3Ops.add (origin (main_ray camera_remote 0 111))
           (Vec3Ops.scale (direction (main_ray camera_remote 0 111)) S754_nan).
Proof.
  apply (intersect_nan_discriminant_hits sphere (main_ray camera_remote 0 111)).
  vm_compute. reflexivity.
Defined.

(** ** The checkerboard test and the palette *)

(** X5.  [isCheckerboard] does not look at the point's y-coordinate, and
    for a point whose floored x- and z-coordinates (and their sum) are
    [int] values it is true exactly when floor(x) + floor(z) is even; the
    truncating [%] of C++ makes no difference, negative sums included. *)
Theorem isCheckerboard_parity (point : Vec3) (y' : float) (checkerX checkerZ : Z) :
  valid (vx point) = true -> valid (vz point) = true ->
  floorZ (vx point) = Some checkerX ->
  floorZ (vz point) = Some checkerZ ->
  int_ok checkerX = true -> int_ok checkerZ = true ->
  int_ok (checkerX + checkerZ) = true ->
  isCheckerboard point = Some (Z.even (checkerX + checkerZ))
  /\ isCheckerboard (mkVec3 (vx point) y' (vz point)) = isCheckerboard point.
Proof.
  intros Hvx Hvz Hx Hz Hokx Hokz Hsum.
  split; [|reflexivity].
  unfold isCheckerboard.
  rewrite (to_int_floor _ _ (valid_small _ Hvx) Hx Hokx).
  rewrite (to_int_floor _ _ (valid_small _ Hvz) Hz Hokz).
  simpl. rewrite Hsum, rem2_even. reflexivity.
Qed.

Lemma isCheckerboard_parity_witness :
  isCheckerboard sample_point = Some (Z.even (-2 + 0))
  /\ isCheckerboard (mkVec3 (vx sample_point) zero (vz sample_point))
     = isCheckerboard sample_point.
Proof.
  apply (isCheckerboard_parity sample_point zero (-2) 0); reflexivity.
Defined.

Lemma string_get_in (s : string) :
  forall n c, String.get n s = Some c -> In c (list_ascii_of_string s).
Proof.
  induction s as [|a s IH]; intros n c Hget; [discriminate|].
  destruct n as [|n]; cbn in Hget |- *.
  - left. congruence.
  - right. apply (IH n c Hget).
Qed.

Lemma getShade_some_palette (t : float) (reflective : bool) (c : ascii) :
  getShade t reflective = Some c ->
  in_palette c /\ (reflective = false -> c = "*"%char \/ c = " "%char).
Proof.
  unfold getShade, in_palette.
  destruct (to_int _) as [i|]; [|discriminate]. simpl.
  destruct reflective.
  - unfold shade_at. destruct (0 <=? Z.min i last_shade); [|discriminate].
    intros Hget. split; [|discriminate].
    apply (string_get_in _ _ _ Hget).
  - destruct (isCheckerboard _) as [[|]|]; [| |discriminate];
      intros [= <-]; split; auto; cbn; auto 10.
Qed.

(** X6.  For every intensity that is a number (any binary32 value other
    than NaN, the infinities included) and either flag, [getShade] returns
    a character, the index it computes is within 0..6, and the character is
    one of the seven of the palette " .:-=+*" (never the null character);
    without the reflective flag it is an asterisk or a space.  For NaN the
    conversion [static_cast<int>(t * 6)] is undefined and [getShade] has no
    defined result. *)
Theorem getShade_in_palette (t : float) (reflective : bool) :
  (valid t = true -> is_nan t = false ->
   exists i c,
     to_int (F32.mul (clamp01 t) (of_int last_shade)) = Some i
     /\ 0 <= Z.min i last_shade <= 6
     /\ getShade t reflective = Some c
     /\ in_palette c
     /\ c <> "000"%char
     /\ (reflective = false -> c = "*"%char \/ c = " "%char))
  /\ to_int (F32.mul (clamp01 S754_nan) (of_int last_shade)) = None
  /\ getShade S754_nan reflective = None.
Proof.
  split; [|split; reflexivity].
  intros Hv Hn.
  pose proof (clamp01_clamped t Hv Hn) as Hc.
  destruct (clamped_shade_index _ Hc) as (i & Hi & Hnn).
  assert (Hr : 0 <= Z.min i last_shade <= 6).
  { change last_shade with 6. lia. }
  assert (Hsome : exists c, getShade t reflective = Some c).
  { unfold getShade. rewrite Hi. simpl. destruct reflective.
    - destruct (shade_at_in_range _ Hr) as (c & _ & Hat). exists c. exact Hat.
    - rewrite (clamped_checker _ Hc). simpl. eexists. reflexivity. }
  destruct Hsome as [c Hget].
  destruct (getShade_some_palette t reflective c Hget) as [Hin Hflat].
  exists i, c. split; [exact Hi|]. split; [exact Hr|]. split; [exact Hget|].
  split; [exact Hin|]. split; [|exact Hflat].
  intros ->. unfold in_palette in Hin. cbn in Hin.
  repeat (destruct Hin as [Hin|Hin]; [discriminate|]). exact Hin.
Qed.

Lemma getShade_in_palette_witness :
  (exists i c,
     to_int (F32.mul (clamp01 (F32.div one two)) (of_int last_shade)) = Some i
     /\ 0 <= Z.min i last_shade <= 6
     /\ getShade (F32.div one two) true = Some c
     /\ in_palette c
     /\ c <> "000"%char
     /\ (true = false -> c = "*"%char \/ c = " "%char))
  /\ getShade S754_nan true = None.
Proof.
  destruct (getShade_in_palette (F32.div one two) true) as [Hnum [_ Hnan]].
  split; [apply Hnum; reflexivity | exact Hnan].
Defined.

(** Every character [render] computes for a cell is a palette
    character. *)
Lemma shadeRay_palette (camera : Vec3) (ray : Ray) (c : ascii) :
  shadeRay camera ray = Some c -> in_palette c.
Proof.
  unfold shadeRay.
  destruct (intersect sphere ray) as [h|].
  - destruct (F32.ltb zero _).
    + destruct (isCheckerboard _) as [b|]; [|discriminate]. simpl.
      intros H. apply (getShade_some_palette _ _ _ H).
    + intros H. apply (getShade_some_palette _ _ _ H).
  - destruct (F32.ltb _ zero).
    + destruct (isCheckerboard _) as [b|]; [|discriminate]. simpl.
      intros H. apply (getShade_some_palette _ _ _ H).
    + intros [= <-]. unfold in_palette. cbn. auto.
Qed.

Lemma palette_not_null (c : ascii) : in_palette c -> c <> "000"%char.
Proof.
  intros Hin ->. unfold in_palette in Hin. cbn in Hin.
  repeat (destruct Hin as [Hin|Hin]; [discriminate|]). exact Hin.
Qed.

(** ** Saturation of the intensity *)

Lemma clamp01_le_zero (t : float) :
  F32.leb t zero = true ->
  clamp01 t = zero \/ exists s, clamp01 t = S754_zero s.
Proof.
  unfold F32.leb, SFleb. rewrite zero_eq.
  destruct t as [s|s| |s m e]; cbv beta iota delta [SFcompare].
  - intros _. right. exists s. destruct s; reflexivity.
  - destruct s; [intros _; left; reflexivity | discriminate].
  - discriminate.
  - destruct s; [intros _; left; reflexivity | discriminate].
Qed.

(** X7.  The clamping of [getShade] saturates: with the reflective flag,
    every intensity at or below 0 (minus infinity and both zeros included)
    gives the emptiest character, a space, and every intensity at or above
    1 (plus infinity included) gives the densest one, an asterisk. *)
Theorem getShade_saturates (t : float) :
  (F32.leb t zero = true -> getShade t true = Some " "%char)
  /\ (F32.leb one t = true -> getShade t true = Some "*"%char).
Proof.
  split.
  - intros Hle. unfold getShade.
    destruct (clamp01_le_zero t Hle) as [-> | [s ->]]; [reflexivity|].
    destruct s; reflexivity.
  - apply getShade_ge_one.
Qed.

Lemma getShade_saturates_witness :
  getShade (of_int (-5)) true = Some " "%char
  /\ getShade (of_int 50) true = Some "*"%char.
Proof.
  split.
  - apply (proj1 (getShade_saturates (of_int (-5)))). reflexivity.
  - apply (proj2 (getShade_saturates (of_int 50))). reflexivity.
Defined.

(** ** A camera ray that misses the sphere *)

Lemma missFloorPoint_small (camera : Vec3) (ray : Ray) :
  small (vx camera) -> small (vz camera) ->
  small (vx (missFloorPoint camera ray)) /\ small (vz (missFloorPoint camera ray)).
Proof.
  intros Hx Hz. unfold missFloorPoint. cbn [Vec3Ops.add Vec3Ops.scale vx vz].
  split; apply add_small; try apply mul_small; assumption.
Qed.

(** X8.  For every cell whose camera ray misses the sphere: if the ray
    points downward ([direction.y < 0]) the cell shows the floor's
    checkerboard at the point where the ray from the camera meets the plane
    y = 0, an asterisk when floor(x) + floor(z) is even and a space when it
    is odd; if it does not point downward the cell is a space. *)
Theorem miss_shows_floor_or_sky
    (width height adjustedWidth adjustedHeight : Z) (camera : Vec3) (x y : Z)
    (checkerX checkerZ : Z) :
  let ray := cameraRay width height adjustedWidth adjustedHeight camera x y in
  valid (vx camera) = true -> valid (vz camera) = true ->
  intersect sphere ray = None ->
  (F32.ltb (vy (direction ray)) zero = false ->
   cellChar width height adjustedWidth adjustedHeight camera x y = Some " "%char)
  /\ (F32.ltb (vy (direction ray)) zero = true ->
      floorZ (vx (missFloorPoint camera ray)) = Some checkerX ->
      floorZ (vz (missFloorPoint camera ray)) = Some checkerZ ->
      int_ok checkerX = true -> int_ok checkerZ = true ->
      int_ok (checkerX + checkerZ) = true ->
      cellChar width height adjustedWidth adjustedHeight camera x y
      = Some (if Z.even (checkerX + checkerZ) then "*"%char else " "%char)).
Proof.
  intros ray Hvx Hvz Hmiss. unfold cellChar, shadeRay. fold ray. rewrite Hmiss.
  split.
  - intros ->. reflexivity.
  - intros -> Hx Hz Hokx Hokz Hsum.
    destruct (missFloorPoint_small camera ray) as [Hsx Hsz];
      [apply valid_small; exact Hvx | apply valid_small; exact Hvz |].
    unfold isCheckerboard.
    rewrite (to_int_floor _ _ Hsx Hx Hokx), (to_int_floor _ _ Hsz Hz Hokz).
    simpl. rewrite Hsum. simpl.
    rewrite getShade_one, rem2_even. reflexivity.
Qed.

Lemma miss_shows_floor_or_sky_witness :
  cellChar 200 250 200 112 camera_start 0 111
  = Some (if Z.even (-1 + -4) then "*"%char else " "%char).
Proof.
  apply (miss_shows_floor_or_sky 200 250 200 112 camera_start 0 111 (-1) (-4));
    vm_compute; reflexivity.
Defined.

(** ** The frame after [render] *)

(** The flag of a cell after its step. *)
Lemma render_cell_flag width height adjustedWidth adjustedHeight camera
    y x buffer changed buffer' changed' :
  render_cell width height adjustedWidth adjustedHeight camera y x (buffer, changed)
  = Some (buffer', changed') ->
  exists newChar old,
    cellChar width height adjustedWidth adjustedHeight camera x y = Some newChar
    /\ buffer !! Z.to_nat (y * width + x) = Some old
    /\ changed' !! Z.to_nat (y * width + x)
       = (if Ascii.eqb newChar old then changed !! Z.to_nat (y * width + x)
          else Some true).
Proof.
  unfold render_cell.
  destruct (cellChar _ _ _ _ _ x y) as [newChar|]; [|discriminate]. simpl.
  destruct (cell_index width x y) as [i|] eqn:Hi; [|discriminate]. simpl.
  pose proof (cell_index_some _ _ _ _ Hi) as ->.
  destruct (vec_get buffer _) as [old|] eqn:Hold; [|discriminate]. simpl.
  apply vec_get_lookup in Hold as [Hnn Hold].
  intros Hrun. exists newChar, old. revert Hrun.
  destruct (Ascii.eqb newChar old).
  - intros [= <- <-]. auto.
  - destruct (vec_set buffer _ newChar) as [b1|]; [|discriminate]. simpl.
    destruct (vec_set changed _ true) as [c1|] eqn:Hc; [|discriminate]. simpl.
    intros [= <- <-].
    apply vec_set_some in Hc as (_ & Hlc & ->).
    repeat split; auto. apply list_lookup_insert_eq. exact Hlc.
Qed.

Section RenderPass.
Variables (width height adjustedWidth adjustedHeight : Z) (camera : Vec3).

Local Abbreviation step := (render_cell width height adjustedWidth adjustedHeight camera).

(** A property of a cell that depends on whether the cell has had its
    step: the step of the cell takes it from "not yet" to "done", the
    steps of other cells keep it. *)
Lemma render_loops_pass (G : bool -> Z -> Z -> frame -> Prop) fr fr' :
  for_range adjustedHeight (fun y => for_range adjustedWidth (step y)) fr = Some fr' ->
  (forall x y, 0 <= x < adjustedWidth -> 0 <= y < adjustedHeight -> G false x y fr) ->
  (forall x y f f',
      0 <= x < adjustedWidth -> 0 <= y < adjustedHeight ->
      G false x y f -> step y x f = Some f' -> G true x y f') ->
  (forall d x y x' y' f f',
      0 <= x < adjustedWidth -> 0 <= y < adjustedHeight ->
      0 <= x' < adjustedWidth -> 0 <= y' < adjustedHeight ->
      (x', y') <> (x, y) ->
      G d x' y' f -> step y x f = Some f' -> G d x' y' f') ->
  forall x y, 0 <= x < adjustedWidth -> 0 <= y < adjustedHeight -> G true x y fr'.
Proof using Type.
  intros Hrun Hinit Hown Hother.
  pose (Q := fun (y x : Z) (f : frame) =>
               forall x' y', 0 <= x' < adjustedWidth -> 0 <= y' < adjustedHeight ->
                             G (stepped_before y x y' x') x' y' f).
  assert (Hend : Q (Z.max 0 adjustedHeight) 0 fr').
  { apply (for_range_inv (fun y => Q y 0) _ _ _ _ Hrun).
    - intros x' y' Hx' Hy'.
      replace (stepped_before 0 0 y' x') with false by (unfold stepped_before; lia).
      apply Hinit; assumption.
    - intros y f f' Hy Hf Hrow.
      assert (Hrow_end : Q y (Z.max 0 adjustedWidth) f').
      { apply (for_range_inv (Q y) _ _ _ _ Hrow Hf).
        intros x g g' Hx Hg Hcell x' y' Hx' Hy'.
        destruct (Z.eq_dec x' x) as [->|Hnx];
          [destruct (Z.eq_dec y' y) as [->|Hny]|].
        - replace (stepped_before y (x + 1) y x) with true by (unfold stepped_before; lia).
          apply (Hown x y g g'); try assumption.
          specialize (Hg x y Hx Hy).
          replace (stepped_before y x y x) with false in Hg by (unfold stepped_before; lia).
          exact Hg.
        - replace (stepped_before y (x + 1) y' x) with (stepped_before y x y' x) by (unfold stepped_before; lia).
          apply (Hother _ x y x y' g g'); try assumption.
          + intros [= ->]. contradiction.
          + apply Hg; assumption.
        - replace (stepped_before y (x + 1) y' x') with (stepped_before y x y' x') by (unfold stepped_before; lia).
          apply (Hother _ x y x' y' g g'); try assumption.
          + intros [= -> ->]. contradiction.
          + apply Hg; assumption. }
      intros x' y' Hx' Hy'. specialize (Hrow_end x' y' Hx' Hy').
      replace (stepped_before (y + 1) 0 y' x') with (stepped_before y (Z.max 0 adjustedWidth) y' x')
        by (unfold stepped_before; lia).
      exact Hrow_end. }
  intros x y Hx Hy. specialize (Hend x y Hx Hy).
  replace (stepped_before (Z.max 0 adjustedHeight) 0 y x) with true in Hend by (unfold stepped_before; lia).
  exact Hend.
Qed.

(** An index that no cell of the sub-rectangle has is left as it is. *)
Lemma render_loops_untouched (k : nat) fr fr' :
  for_range adjustedHeight (fun y => for_range adjustedWidth (step y)) fr = Some fr' ->
  (forall x y, 0 <= x < adjustedWidth -> 0 <= y < adjustedHeight ->
               Z.to_nat (y * width + x) <> k) ->
  fst fr' !! k = fst fr !! k /\ snd fr' !! k = snd fr !! k.
Proof using Type.
  intros Hrun Hfresh.
  apply (render_loops_inv width height adjustedWidth adjustedHeight camera
           (fun f => fst f !! k = fst fr !! k /\ snd f !! k = snd fr !! k)
           _ _ Hrun); [split; reflexivity|].
  intros x y [b c] [b' c'] Hx Hy [Hb Hc] Hstep.
  apply render_cell_spec in Hstep
    as (nc & old & _ & _ & _ & _ & _ & _ & _ & Hother & _).
  destruct (Hother k) as [Hb' Hc']; [intros ->; apply (Hfresh x y); auto|].
  simpl in *. split; congruence.
Qed.

End RenderPass.

Section RenderFrame.
Variables (width height adjustedWidth adjustedHeight : Z) (camera : Vec3).
Variables (buffer buffer1 : list ascii) (changed changed1 : list bool).

Local Abbreviation pixel := (cellChar width height adjustedWidth adjustedHeight camera).

Hypothesis Hshape : adjustedWidth = width \/ adjustedHeight = height.
Hypothesis Hheight : adjustedHeight <= height.
Hypothesis Hgrid : length buffer = Z.to_nat (width * height).
Hypothesis Hflags : length changed = Z.to_nat (width * height).
Hypothesis Hloops :
  for_range adjustedHeight
    (fun y => for_range adjustedWidth
       (render_cell width height adjustedWidth adjustedHeight camera y))
    (buffer, clear_flags changed) = Some (buffer1, changed1).

(** Distinct cells of the sub-rectangle have distinct indices. *)
Lemma sub_rectangle_injective x y x' y' :
  0 <= x < adjustedWidth -> 0 <= y < adjustedHeight ->
  0 <= x' < adjustedWidth -> 0 <= y' < adjustedHeight ->
  Z.to_nat (y' * width + x') = Z.to_nat (y * width + x) -> (x', y') = (x, y).
Proof using Hshape Hgrid Hloops.
  clear Hflags Hheight.
  intros Hx Hy Hx' Hy' Heq.
  assert (Hfit : adjustedWidth <= width).
  { apply (sub_rectangle_fits width height adjustedWidth adjustedHeight camera
             buffer buffer1 (clear_flags changed) changed1 Hshape Hgrid Hloops); lia. }
  destruct (first_pass_in_range width height adjustedWidth adjustedHeight camera
              buffer buffer1 (clear_flags changed) changed1 Hloops x y Hx Hy) as [Hn _].
  destruct (first_pass_in_range width height adjustedWidth adjustedHeight camera
              buffer buffer1 (clear_flags changed) changed1 Hloops x' y' Hx' Hy') as [Hn' _].
  apply Z2Nat.inj in Heq; [|lia|lia].
  destruct (row_major_injective width x' y' x y) as [-> ->]; [lia | lia | exact Heq |].
  reflexivity.
Qed.

(** After the loops a cell of the sub-rectangle holds its character, and
    its flag tells whether that differs from the character before. *)
Lemma sub_rectangle_cell x y :
  0 <= x < adjustedWidth -> 0 <= y < adjustedHeight ->
  exists c old,
    pixel x y = Some c
    /\ buffer !! Z.to_nat (y * width + x) = Some old
    /\ buffer1 !! Z.to_nat (y * width + x) = Some c
    /\ changed1 !! Z.to_nat (y * width + x) = Some (negb (Ascii.eqb c old)).
Proof using Hshape Hgrid Hflags Hloops.
  clear Hheight.
  intros Hx Hy.
  pose (G := fun (d : bool) (x y : Z) (f : frame) =>
               exists c old,
                 pixel x y = Some c
                 /\ buffer !! Z.to_nat (y * width + x) = Some old
                 /\ fst f !! Z.to_nat (y * width + x) = Some (if d then c else old)
                 /\ snd f !! Z.to_nat (y * width + x)
                    = Some (if d then negb (Ascii.eqb c old) else false)).
  apply (render_loops_pass width height adjustedWidth adjustedHeight camera G
           _ _ Hloops); try assumption.
  - intros x0 y0 Hx0 Hy0.
    destruct (first_pass_settled width height adjustedWidth adjustedHeight camera
                buffer buffer1 (clear_flags changed) changed1 Hshape Hgrid Hloops
                x0 y0 Hx0 Hy0) as (c & Hpix & _).
    destruct (first_pass_in_range width height adjustedWidth adjustedHeight camera
                buffer buffer1 (clear_flags changed) changed1 Hloops x0 y0 Hx0 Hy0)
      as [_ Hlt].
    destruct (lookup_lt_is_Some_2 buffer _ Hlt) as [old Hold].
    exists c, old. repeat split; try assumption.
    simpl. unfold clear_flags. apply lookup_replicate_2. lia.
  - intros x0 y0 [b c] [b' c'] Hx0 Hy0 (c0 & old & Hpix & Hold & Hb & Hc) Hstep.
    destruct (render_cell_flag _ _ _ _ _ _ _ _ _ _ _ Hstep)
      as (nc & old' & Hpix' & Hold' & Hflag).
    apply render_cell_spec in Hstep
      as (nc2 & old2 & Hpix2 & _ & _ & _ & Hnew & _).
    simpl in *.
    assert (nc = c0) by congruence. assert (nc2 = c0) by congruence.
    assert (old' = old) by congruence. subst.
    exists c0, old. split; [assumption|]. split; [assumption|]. split.
    + exact Hnew.
    + cbn [snd]. rewrite Hflag, Hc. destruct (Ascii.eqb c0 old); reflexivity.
  - intros d x0 y0 x' y' [b c] [b' c'] Hx0 Hy0 Hx' Hy' Hne
           (c0 & old & Hpix & Hold & Hb & Hc) Hstep.
    apply render_cell_spec in Hstep
      as (nc & old2 & _ & _ & _ & _ & _ & _ & _ & Hother & _).
    destruct (Hother (Z.to_nat (y' * width + x'))) as [Hb' Hc'].
    { intros Heq. apply Hne.
      apply (sub_rectangle_injective x0 y0 x' y'); assumption. }
    exists c0, old. simpl in *. repeat split; try assumption; congruence.
Qed.

(** An index of the grid that is not a cell of the sub-rectangle keeps its
    character and has its flag cleared. *)
Lemma outside_cell (k : nat) :
  (forall x y, 0 <= x < adjustedWidth -> 0 <= y < adjustedHeight ->
               Z.to_nat (y * width + x) <> k) ->
  buffer1 !! k = buffer !! k
  /\ ((k < length changed)%nat -> changed1 !! k = Some false).
Proof using Hloops.
  clear Hshape Hheight Hgrid Hflags.
  intros Hfresh.
  destruct (render_loops_untouched width height adjustedWidth adjustedHeight camera
              k _ _ Hloops Hfresh) as [Hb Hc].
  simpl in *. split; [exact Hb|]. intros Hlt. rewrite Hc.
  unfold clear_flags. apply lookup_replicate_2. exact Hlt.
Qed.

(** Over the whole grid, the flags are the difference between the buffer
    before and after. *)
Lemma flags_are_difference (k : nat) (c0 c1 : ascii) :
  buffer !! k = Some c0 -> buffer1 !! k = Some c1 ->
  changed1 !! k = Some (negb (Ascii.eqb c1 c0)).
Proof using Hshape Hheight Hgrid Hflags Hloops.
  intros H0 H1.
  assert (Hk : (k < Z.to_nat (width * height))%nat).
  { rewrite <- Hgrid. apply (lookup_lt_Some _ _ _ H0). }
  assert (Hcell :
            (exists x y, 0 <= x < adjustedWidth /\ 0 <= y < adjustedHeight
                         /\ Z.to_nat (y * width + x) = k)
            \/ (forall x y, 0 <= x < adjustedWidth -> 0 <= y < adjustedHeight ->
                            Z.to_nat (y * width + x) <> k)).
  { destruct (Z_lt_le_dec 0 width) as [Hw|Hw].
    - pose proof (Z.div_mod (Z.of_nat k) width ltac:(lia)) as Hdm.
      pose proof (Z.mod_pos_bound (Z.of_nat k) width Hw) as Hmod.
      set (x0 := Z.of_nat k mod width) in *.
      set (y0 := Z.of_nat k / width) in *.
      assert (Hy0 : 0 <= y0) by (apply Z.div_pos; lia).
      destruct (Z_lt_le_dec x0 adjustedWidth) as [Hxa|Hxa];
        [destruct (Z_lt_le_dec y0 adjustedHeight) as [Hya|Hya]|].
      + left. exists x0, y0. repeat split; try lia.
      + right. intros x y Hx Hy Heq.
        assert (Hidx : y * width + x = y0 * width + x0) by nia.
        assert (Hxw : adjustedWidth <= width \/ width < adjustedWidth) by lia.
        destruct Hxw as [Hfit|Hwide].
        * destruct (row_major_injective width x y x0 y0); lia.
        * destruct Hshape as [->|Hah]; [lia|].
          assert (y0 < height) by nia. lia.
      + right. intros x y Hx Hy Heq.
        assert (Hidx : y * width + x = y0 * width + x0) by nia.
        destruct Hshape as [->|Hah]; [lia|].
        assert (Hyh : y0 < height) by nia.
        assert (Hfit : adjustedWidth <= width) by lia.
        destruct (row_major_injective width x y x0 y0); lia.
    - right. intros x y Hx Hy _.
      assert (Hfit : adjustedWidth <= width).
      { apply (sub_rectangle_fits width height adjustedWidth adjustedHeight camera
                 buffer buffer1 (clear_flags changed) changed1 Hshape Hgrid Hloops); lia. }
      lia. }
  destruct Hcell as [(x & y & Hx & Hy & <-)|Hfresh].
  - destruct (sub_rectangle_cell x y Hx Hy) as (c & old & _ & Hold & Hnew & Hflag).
    rewrite Hflag. congruence.
  - destruct (outside_cell k Hfresh) as [Hb Hc].
    rewrite Hc by lia.
    assert (c1 = c0) by congruence. subst. rewrite Ascii.eqb_refl. reflexivity.
Qed.

End RenderFrame.

(** [render] keeps the sizes of the buffer and of the flags. *)
Lemma render_lengths width height camera buffer changed buffer1 changed1 :
  render width height camera (buffer, changed) = Some (buffer1, changed1) ->
  length buffer1 = length buffer /\ length changed1 = length changed.
Proof.
  intros Hrender.
  destruct (render_unfold _ _ _ _ _ Hrender) as (aw & ah & Hadj & Hloops).
  simpl in Hloops.
  apply (render_loops_inv width height aw ah camera
           (fun f => length (fst f) = length buffer /\ length (snd f) = length changed)
           _ _ Hloops).
  - simpl. unfold clear_flags. rewrite length_replicate. auto.
  - intros x y [b c] [b' c'] _ _ [Hb Hc] Hstep.
    apply render_cell_spec in Hstep as (nc & old & _ & _ & _ & _ & _ & Hlb & Hlc & _).
    simpl in *. split; congruence.
Qed.

(** Rendering the frame of a [render] call again, whatever the flags. *)
Lemma render_again width height camera buffer changed buffer1 changed1 flags :
  length buffer = Z.to_nat (width * height) ->
  render width height camera (buffer, changed) = Some (buffer1, changed1) ->
  render width height camera (buffer1, flags)
  = Some (buffer1, replicate (length flags) false).
Proof.
  intros Hgrid Hrender.
  destruct (render_unfold _ _ _ _ _ Hrender) as (aw & ah & Hadj & Hloops).
  destruct (adjusted_shape _ _ _ _ Hadj) as [_ Hshape].
  simpl in Hloops. unfold render. rewrite Hadj. simpl.
  apply (second_pass_fixed width height aw ah camera buffer buffer1
           (clear_flags changed) changed1 Hshape Hgrid Hloops).
Qed.

(** X9.  After a [render] call on a grid-sized buffer, every cell of the
    sub-rectangle lies inside the grid and holds the character computed
    for its camera ray, which is a character of the palette. *)
Theorem render_fills_sub_rectangle
    (width height : Z) (camera : Vec3) (buffer buffer1 : list ascii)
    (changed changed1 : list bool) (adjustedWidth adjustedHeight x y : Z) :
  length buffer = Z.to_nat (width * height) ->
  render width height camera (buffer, changed) = Some (buffer1, changed1) ->
  adjusted width height = Some (adjustedWidth, adjustedHeight) ->
  0 <= x < adjustedWidth -> 0 <= y < adjustedHeight ->
  x < width /\ y < height
  /\ exists c,
       cellChar width height adjustedWidth adjustedHeight camera x y = Some c
       /\ buffer1 !! Z.to_nat (y * width + x) = Some c
       /\ in_palette c.
Proof.
  intros Hgrid Hrender Hadj Hx Hy.
  destruct (render_unfold _ _ _ _ _ Hrender) as (aw & ah & Hadj' & Hloops).
  rewrite Hadj in Hadj'. injection Hadj' as <- <-.
  destruct (adjusted_shape _ _ _ _ Hadj) as [Hah Hshape].
  simpl in Hloops.
  assert (Hfit : adjustedWidth <= width).
  { apply (sub_rectangle_fits width height adjustedWidth adjustedHeight camera
             buffer buffer1 (clear_flags changed) changed1 Hshape Hgrid Hloops); lia. }
  destruct (first_pass_settled width height adjustedWidth adjustedHeight camera
              buffer buffer1 (clear_flags changed) changed1 Hshape Hgrid Hloops
              x y Hx Hy) as (c & Hpix & _ & _ & Hval).
  split; [lia|]. split; [lia|].
  exists c. repeat split; try assumption.
  apply (shadeRay_palette camera _ c Hpix).
Qed.

Lemma render_fills_sub_rectangle_witness :
  4 < 8 /\ 2 < 3
  /\ exists c,
       cellChar 8 3 5 3 camera_start 4 2 = Some c
       /\ fst small_frame_rendered !! Z.to_nat (2 * 8 + 4) = Some c
       /\ in_palette c.
Proof.
  apply (render_fills_sub_rectangle 8 3 camera_start
           (fst small_frame) (fst small_frame_rendered)
           (snd small_frame) (snd small_frame_rendered) 5 3 4 2);
    [vm_compute; reflexivity | vm_compute; reflexivity | vm_compute; reflexivity
    | lia | lia].
Defined.

(** X10.  After a [render] call on a grid-sized buffer and mask, the mask
    is exactly the difference of the buffer: at every position the flag is
    true when the character differs from the one before the call and false
    when it is the same, whatever the mask held before. *)
Theorem render_mask_is_difference
    (width height : Z) (camera : Vec3) (buffer buffer1 : list ascii)
    (changed changed1 : list bool) (k : nat) (c0 c1 : ascii) :
  length buffer = Z.to_nat (width * height) ->
  length changed = Z.to_nat (width * height) ->
  render width height camera (buffer, changed) = Some (buffer1, changed1) ->
  buffer !! k = Some c0 -> buffer1 !! k = Some c1 ->
  changed1 !! k = Some (negb (Ascii.eqb c1 c0)).
Proof.
  intros Hgrid Hflags Hrender H0 H1.
  destruct (render_unfold _ _ _ _ _ Hrender) as (aw & ah & Hadj & Hloops).
  destruct (adjusted_shape _ _ _ _ Hadj) as [Hah Hshape].
  simpl in Hloops.
  apply (flags_are_difference width height aw ah camera buffer buffer1
           changed changed1 Hshape Hah Hgrid Hflags Hloops k c0 c1 H0 H1).
Qed.

Lemma render_mask_is_difference_witness :
  snd small_frame_rendered !! 20%nat = Some (negb (Ascii.eqb "*" "000")).
Proof.
  apply (render_mask_is_difference 8 3 camera_start
           (fst small_frame) (fst small_frame_rendered)
           (snd small_frame) (snd small_frame_rendered) 20 "000"%char "*"%char);
    vm_compute; reflexivity.
Defined.

(** X11.  The first frame: [main] starts with a buffer of null characters,
    and [render] on such a buffer flags every cell of the sub-rectangle,
    because no computed character is the null character. *)
Theorem first_frame_flags_sub_rectangle
    (width height : Z) (camera : Vec3) (buffer1 : list ascii)
    (changed changed1 : list bool) (adjustedWidth adjustedHeight x y : Z) :
  length changed = Z.to_nat (width * height) ->
  render width height camera
    (replicate (Z.to_nat (width * height)) "000"%char, changed)
  = Some (buffer1, changed1) ->
  adjusted width height = Some (adjustedWidth, adjustedHeight) ->
  0 <= x < adjustedWidth -> 0 <= y < adjustedHeight ->
  changed1 !! Z.to_nat (y * width + x) = Some true
  /\ buffer1 !! Z.to_nat (y * width + x) <> Some "000"%char.
Proof.
  intros Hflags Hrender Hadj Hx Hy.
  destruct (render_unfold _ _ _ _ _ Hrender) as (aw & ah & Hadj' & Hloops).
  rewrite Hadj in Hadj'. injection Hadj' as <- <-.
  destruct (adjusted_shape _ _ _ _ Hadj) as [Hah Hshape].
  simpl in Hloops.
  destruct (sub_rectangle_cell width height adjustedWidth adjustedHeight camera
              _ buffer1 changed changed1 Hshape (length_replicate _ _) Hflags Hloops
              x y Hx Hy) as (c & old & Hpix & Hold & Hnew & Hflag).
  apply lookup_replicate in Hold as [-> _].
  pose proof (palette_not_null c (shadeRay_palette camera _ c Hpix)) as Hnull.
  rewrite Hflag, Hnew. split.
  - destruct (Ascii.eqb_spec c "000"); [contradiction | reflexivity].
  - congruence.
Qed.

Lemma first_frame_flags_sub_rectangle_witness :
  snd small_frame_rendered !! Z.to_nat (0 * 8 + 0) = Some true
  /\ fst small_frame_rendered !! Z.to_nat (0 * 8 + 0) <> Some "000"%char.
Proof.
  apply (first_frame_flags_sub_rectangle 8 3 camera_start
           (fst small_frame_rendered) (snd small_frame) (snd small_frame_rendered)
           5 3 0 0);
    [vm_compute; reflexivity | vm_compute; reflexivity | vm_compute; reflexivity
    | lia | lia].
Defined.

(** ** What a frame writes to the terminal *)

(** A cell whose flag is false is passed over, without a look at the
    buffer. *)
Lemma display_cell_unflagged width height buffer changed y x out :
  width * height <= INT_MAX + 1 ->
  length changed = Z.to_nat (width * height) ->
  0 <= x < width -> 0 <= y < height ->
  changed !! Z.to_nat (y * width + x) = Some false ->
  display_cell width buffer changed y x out = Some out.
Proof.
  intros Hsize Hlen Hx Hy Hflag. unfold display_cell.
  rewrite (cell_index_grid width height) by assumption. simpl.
  assert (Hr : 0 <= y * width + x < width * height) by nia.
  unfold vec_get. destruct (Z.leb_spec 0 (y * width + x)); [|lia].
  rewrite Hflag. reflexivity.
Qed.

Lemma displayBuffer_unflagged width height buffer changed out :
  width * height <= INT_MAX + 1 ->
  length changed = Z.to_nat (width * height) ->
  (forall k b, changed !! k = Some b -> b = false) ->
  displayBuffer width height buffer changed out = Some out.
Proof.
  intros Hsize Hlen Hfalse. unfold displayBuffer.
  apply for_range_fixed. intros y Hy.
  apply for_range_fixed. intros x Hx.
  apply (display_cell_unflagged width height); try assumption.
  assert (Hr : 0 <= y * width + x < width * height) by nia.
  destruct (lookup_lt_is_Some_2 changed (Z.to_nat (y * width + x))) as [b Hb]; [lia|].
  rewrite Hb. f_equal. apply (Hfalse _ _ Hb).
Qed.

(** X12.  With no flag set, [displayBuffer] writes nothing to the
    terminal, and it does not read the buffer: the buffer may hold
    anything, of any size. *)
Theorem displayBuffer_no_flags_silent
    (width height : Z) (buffer : list ascii) (changed : list bool) (out : string) :
  width * height <= INT_MAX + 1 ->
  length changed = Z.to_nat (width * height) ->
  (forall k b, changed !! k = Some b -> b = false) ->
  displayBuffer width height buffer changed out = Some out.
Proof. apply displayBuffer_unflagged. Qed.

Lemma displayBuffer_no_flags_silent_witness :
  displayBuffer 2 2 [] [false; false; false; false] "seen" = Some "seen"%string.
Proof.
  apply (displayBuffer_no_flags_silent 2 2 [] [false; false; false; false] "seen");
    [unfold INT_MAX; lia | reflexivity |].
  intros k b Hb%list_elem_of_lookup_2.
  repeat (apply elem_of_cons in Hb as [->|Hb]; [reflexivity|]).
  apply elem_of_nil in Hb. contradiction.
Defined.

(** X13.  On an empty grid (a width or a height that is not positive)
    [displayBuffer] writes nothing and touches neither vector. *)
Theorem displayBuffer_empty_grid
    (width height : Z) (buffer : list ascii) (changed : list bool) (out : string) :
  width <= 0 \/ height <= 0 ->
  displayBuffer width height buffer changed out = Some out.
Proof.
  intros Hempty. unfold displayBuffer.
  apply for_range_fixed. intros y Hy.
  apply for_range_fixed. intros x Hx. lia.
Qed.

Lemma displayBuffer_empty_grid_witness :
  displayBuffer 0 5 [] [] "seen" = Some "seen"%string.
Proof.
  apply (displayBuffer_empty_grid 0 5 [] [] "seen"). left. lia.
Defined.

(** X14.  [render] followed by [displayBuffer], as in [main]'s loop: the
    text written for a frame is determined by the buffer before and after
    the [render] call alone, and draws, in row-major order, exactly the
    cells whose character changed. *)
Theorem frame_draws_changed_cells
    (width height : Z) (camera : Vec3) (buffer buffer1 : list ascii)
    (changed changed1 : list bool) (out : string) :
  width * height <= INT_MAX + 1 ->
  length buffer = Z.to_nat (width * height) ->
  length changed = Z.to_nat (width * height) ->
  render width height camera (buffer, changed) = Some (buffer1, changed1) ->
  displayBuffer width height buffer1 changed1 out
  = Some (out ++ diff_text width height buffer buffer1)%string.
Proof.
  intros Hsize Hgrid Hflags Hrender.
  destruct (render_lengths _ _ _ _ _ _ _ Hrender) as [Hlb Hlc].
  rewrite (displayBuffer_frame_text width height buffer1 changed1)
    by (try assumption; congruence).
  f_equal. f_equal. unfold frame_text, diff_text. f_equal.
  apply map_ext_in. intros y Hy%list_elem_of_In%elem_of_seqZ. f_equal.
  apply map_ext_in. intros x Hx%list_elem_of_In%elem_of_seqZ.
  unfold cell_text, diff_cell_text.
  assert (Hr : 0 <= y * width + x < width * height) by nia.
  destruct (lookup_lt_is_Some_2 buffer (Z.to_nat (y * width + x))) as [c0 H0]; [lia|].
  destruct (lookup_lt_is_Some_2 buffer1 (Z.to_nat (y * width + x))) as [c1 H1]; [lia|].
  destruct (render_unfold _ _ _ _ _ Hrender) as (aw & ah & Hadj & Hloops).
  destruct (adjusted_shape _ _ _ _ Hadj) as [Hah Hshape].
  simpl in Hloops.
  rewrite (flags_are_difference width height aw ah camera buffer buffer1
             changed changed1 Hshape Hah Hgrid Hflags Hloops _ c0 c1 H0 H1).
  rewrite H0, H1. destruct (Ascii.eqb c1 c0); reflexivity.
Qed.

Lemma frame_draws_changed_cells_witness :
  displayBuffer 8 3 (fst small_frame_rendered) (snd small_frame_rendered) ""
  = Some ("" ++ diff_text 8 3 (fst small_frame) (fst small_frame_rendered))%string.
Proof.
  apply (frame_draws_changed_cells 8 3 camera_start
           (fst small_frame) (fst small_frame_rendered)
           (snd small_frame) (snd small_frame_rendered) "");
    [unfold INT_MAX; lia | vm_compute; reflexivity | vm_compute; reflexivity
    | vm_compute; reflexivity].
Defined.

(** ** The loop of [main] *)

Lemma handle_key_idle (ch : ascii) (camera : Vec3) :
  movement_key ch = false -> handle_key ch camera = camera.
Proof.
  unfold movement_key, handle_key. intros Hkey.
  repeat (apply orb_false_iff in Hkey as [Hkey ?]).
  repeat match goal with H : Ascii.eqb _ _ = false |- _ => rewrite H; clear H end.
  reflexivity.
Qed.

Lemma loop_iteration_settles width height ch st st' :
  length (fst (snd (fst st))) = Z.to_nat (width * height) ->
  length (snd (snd (fst st))) = Z.to_nat (width * height) ->
  loop_iteration width height ch st = Some st' ->
  settled_state width height st'
  /\ length (fst (snd (fst st'))) = Z.to_nat (width * height).
Proof.
  destruct st as [[camera [b c]] out]. simpl. intros Hlb Hlc.
  destruct (render width height (handle_key ch camera) (b, c)) as [[b1 c1]|] eqn:Hrender;
    [|discriminate]. simpl.
  destruct (displayBuffer _ _ _ _ out) as [out1|]; [|discriminate]. simpl.
  intros [= <-]. simpl.
  destruct (render_lengths _ _ _ _ _ _ _ Hrender) as [Hlb1 Hlc1].
  split; [split|]; try congruence.
  intros flags. apply (render_again width height _ b c b1 c1 flags Hlb Hrender).
Qed.

Lemma idle_iteration width height ch camera buffer flags out :
  width * height <= INT_MAX + 1 ->
  settled_state width height (camera, (buffer, flags), out) ->
  movement_key ch = false ->
  loop_iteration width height ch (camera, (buffer, flags), out)
  = Some (camera, (buffer, replicate (Z.to_nat (width * height)) false), out)
  /\ settled_state width height
       (camera, (buffer, replicate (Z.to_nat (width * height)) false), out).
Proof.
  intros Hsize [Hlen Hfix] Hkey. simpl in Hlen, Hfix.
  split.
  - unfold loop_iteration. rewrite (handle_key_idle ch camera Hkey).
    rewrite (Hfix flags). simpl. rewrite Hlen.
    rewrite displayBuffer_unflagged; [reflexivity | assumption | |].
    + apply length_replicate.
    + intros k b Hb. apply lookup_replicate in Hb as [-> _]. reflexivity.
  - split; simpl; [apply length_replicate | exact Hfix].
Qed.

Lemma idle_keys width height idle :
  width * height <= INT_MAX + 1 ->
  Forall (fun ch => movement_key ch = false) idle ->
  forall camera buffer flags out,
    settled_state width height (camera, (buffer, flags), out) ->
    exists flags',
      main_loop width height idle (camera, (buffer, flags), out)
      = Some (camera, (buffer, flags'), out).
Proof.
  intros Hsize Hidle. induction Hidle as [|ch idle Hch Hidle IH];
    intros camera buffer flags out Hst.
  - exists flags. reflexivity.
  - destruct (idle_iteration width height ch camera buffer flags out Hsize Hst Hch)
      as [Hit Hst'].
    cbn [main_loop]. rewrite Hit. apply IH. exact Hst'.
Qed.

Lemma main_loop_app width height keys idle :
  forall st st',
    main_loop width height keys st = Some st' ->
    main_loop width height (keys ++ idle) st = main_loop width height idle st'.
Proof.
  induction keys as [|ch keys IH]; intros st st' Hrun; cbn [main_loop app] in *.
  - injection Hrun as <-. reflexivity.
  - destruct (loop_iteration width height ch st) as [st1|]; [|discriminate].
    apply IH. exact Hrun.
Qed.

Lemma main_loop_settles width height keys :
  forall st st',
    keys <> [] ->
    length (fst (snd (fst st))) = Z.to_nat (width * height) ->
    length (snd (snd (fst st))) = Z.to_nat (width * height) ->
    main_loop width height keys st = Some st' ->
    settled_state width height st'.
Proof.
  induction keys as [|ch keys IH]; intros st st' Hne Hlb Hlc Hrun; [contradiction|].
  cbn [main_loop] in Hrun.
  destruct (loop_iteration width height ch st) as [st1|] eqn:Hit; [|discriminate].
  destruct (loop_iteration_settles width height ch st st1 Hlb Hlc Hit) as [Hst1 Hlb1].
  destruct keys as [|ch' keys].
  - cbn [main_loop] in Hrun. injection Hrun as <-. exact Hst1.
  - apply (IH st1 st'); try assumption; [discriminate|].
    destruct st1 as [[cam1 [b1 c1]] out1]. destruct Hst1 as [Hlen _]. exact Hlen.
Qed.

(** X15.  In [main]'s loop, once a frame has been drawn, keys that have no
    case in the [switch] change nothing that can be seen: after any number
    of them the camera, the buffer and the text on the terminal are what
    they were. *)
Theorem idle_keys_print_nothing
    (width height : Z) (keys idle : list ascii) (st : loop_state)
    (camera : Vec3) (fr : frame) (out : string) :
  width * height <= INT_MAX + 1 ->
  length (fst (snd (fst st))) = Z.to_nat (width * height) ->
  length (snd (snd (fst st))) = Z.to_nat (width * height) ->
  keys <> [] ->
  main_loop width height keys st = Some (camera, fr, out) ->
  Forall (fun ch => movement_key ch = false) idle ->
  exists flags,
    main_loop width height (keys ++ idle) st = Some (camera, (fst fr, flags), out).
Proof.
  intros Hsize Hlb Hlc Hne Hrun Hidle.
  pose proof (main_loop_settles width height keys st _ Hne Hlb Hlc Hrun) as Hst.
  rewrite (main_loop_app width height keys idle st _ Hrun).
  destruct fr as [b c].
  apply (idle_keys width height idle Hsize Hidle camera b c out Hst).
Qed.

Lemma idle_keys_print_nothing_witness :
  exists flags,
    main_loop 8 3 (["w"] ++ ["q"; " "])%char (camera_start, small_frame, ""%string)
    = Some (handle_key "w" camera_start, (fst moved_frame, flags), moved_text).
Proof.
  apply (idle_keys_print_nothing 8 3 ["w"%char] ["q"; " "]%char
           (camera_start, small_frame, ""%string)
           (handle_key "w" camera_start) moved_frame moved_text);
    [unfold INT_MAX; lia | reflexivity | reflexivity | discriminate
    | vm_compute; reflexivity | repeat constructor].
Defined.

(** The same for [main] itself, on its grid of 200 by 250 cells. *)
Lemma main_idle_keys (keys idle : list ascii) (camera : Vec3) (fr : frame) (out : string) :
  keys <> [] ->
  main keys = Some (camera, fr, out) ->
  Forall (fun ch => movement_key ch = false) idle ->
  exists flags, main (keys ++ idle) = Some (camera, (fst fr, flags), out).
Proof.
  intros Hne Hrun Hidle. unfold main in *.
  assert (Hst : settled_state main_width main_height (camera, fr, out)).
  { apply (main_loop_settles main_width main_height keys _ _ Hne) in Hrun;
      [exact Hrun | apply length_replicate | apply length_replicate]. }
  rewrite (main_loop_app main_width main_height keys idle _ _ Hrun).
  destruct fr as [b c].
  apply (idle_keys main_width main_height idle); [vm_compute; discriminate | exact Hidle |].
  exact Hst.
Qed.

(** ** An empty sub-rectangle *)

(** X16.  When the sub-rectangle is empty (a grid without rows or without
    columns), [render] computes no cell: it returns the buffer as it is,
    whatever its size, with every flag cleared. *)
Theorem render_empty_sub_rectangle
    (width height : Z) (camera : Vec3) (buffer : list ascii) (changed : list bool)
    (adjustedWidth adjustedHeight : Z) :
  adjusted width height = Some (adjustedWidth, adjustedHeight) ->
  adjustedWidth <= 0 \/ adjustedHeight <= 0 ->
  render width height camera (buffer, changed)
  = Some (buffer, replicate (length changed) false).
Proof.
  intros Hadj Hempty. unfold render. rewrite Hadj. simpl.
  apply for_range_fixed. intros y Hy.
  apply for_range_fixed. intros x Hx. lia.
Qed.

Lemma render_empty_sub_rectangle_witness :
  render 8 0 camera_start (["a"; "b"]%char, [true])
  = Some (["a"; "b"]%char, replicate (length [true]) false).
Proof.
  apply (render_empty_sub_rectangle 8 0 camera_start ["a"; "b"]%char [true] 0 0);
    [vm_compute; reflexivity | right; lia].
Defined.

(** ** The sub-rectangle fits in the grid *)

(** The exact result of [shr_fexp]. *)
Lemma shr_fexp_exact (m e : Z) (l : location) :
  0 <= m ->
  let e1 := Z.max e (fexp prec emax (Zdigits2 m + e)) in
  snd (shr_fexp prec emax m e l) = e1
  /\ shr_m (fst (shr_fexp prec emax m e l)) = m / 2 ^ (e1 - e).
Proof.
  intros Hm e1. unfold shr_fexp.
  destruct (shr_spec (shr_record_of_loc m l) e
              (fexp prec emax (Zdigits2 m + e) - e)) as [Hs He].
  { rewrite shr_record_of_loc_m. exact Hm. }
  rewrite Hs, He, shr_record_of_loc_m. unfold e1.
  split; [lia|]. f_equal. f_equal. lia.
Qed.

(** A rounded result is at most one unit of the first shift above the
    number that is rounded. *)
Lemma binary_round_aux_upper (mx ex : Z) (lx : location) :
  0 <= mx ->
  let e1 := Z.max ex (fexp prec emax (Zdigits2 mx + ex)) in
  let r := binary_round_aux prec emax false mx ex lx in
  r = S754_zero false
  \/ (r = S754_infinity false /\ 104 < e1 + 1)
  \/ exists m e,
       r = S754_finite false m e
       /\ Zpos m < 2 ^ 24
       /\ e1 <= e <= e1 + 1
       /\ Zpos m * 2 ^ (e - ex) <= mx + 2 ^ (e1 - ex).
Proof.
  intros Hmx e1 r. subst r. unfold binary_round_aux.
  destruct (shr_fexp_exact mx ex lx Hmx) as [H1e H1m].
  destruct (shr_fexp_spec mx ex lx Hmx) as ([H1lo H1hi] & _ & _).
  fold e1 in H1e, H1m.
  destruct (shr_fexp prec emax mx ex lx) as [mrs1 e1']. cbn [fst snd] in *. subst e1'.
  set (m2 := round_nearest_even (shr_m mrs1) (loc_of_shr_record mrs1)).
  pose proof (round_nearest_even_bounds (shr_m mrs1) (loc_of_shr_record mrs1)) as Hm2.
  fold m2 in Hm2.
  assert (Hm2nn : 0 <= m2) by lia.
  destruct (shr_fexp_exact m2 e1 loc_Exact Hm2nn) as [H3e H3m].
  destruct (shr_fexp_spec m2 e1 loc_Exact Hm2nn) as ([H3lo H3hi] & _ & _).
  destruct (shr_fexp prec emax m2 e1 loc_Exact) as [mrs3 e3]. cbn [fst snd] in *.
  assert (Hd2 : Zdigits2 m2 <= 25).
  { apply Zdigits2_le; [lia | lia |].
    replace (2 ^ 25) with (2 * 2 ^ 24) by reflexivity. lia. }
  assert (He1 : ex <= e1 /\ -149 <= e1) by (unfold e1, fexp, emin, prec, emax; lia).
  assert (He3 : e1 <= e3 <= e1 + 1).
  { rewrite H3e. unfold fexp, emin, prec, emax. lia. }
  destruct (shr_m mrs3) as [|m3|m3] eqn:Hm3; [left; reflexivity | | lia].
  destruct (Z.leb_spec e3 (emax - prec)) as [Hle|Hgt].
  - right. right. exists m3, e3. split; [reflexivity|]. split; [lia|]. split; [exact He3|].
    assert (Hp1 : 0 < 2 ^ (e1 - ex)) by (apply Z.pow_pos_nonneg; lia).
    assert (Hp3 : 0 < 2 ^ (e3 - e1)) by (apply Z.pow_pos_nonneg; lia).
    replace (e3 - ex) with ((e3 - e1) + (e1 - ex)) by lia.
    rewrite Z.pow_add_r by lia.
    assert (Ha : Zpos m3 * 2 ^ (e3 - e1) <= m2).
    { rewrite H3m, H3e. fold (Z.max e1 (fexp prec emax (Zdigits2 m2 + e1))).
      rewrite <- H3e. rewrite Z.mul_comm. apply Z.mul_div_le. exact Hp3. }
    assert (Hb : shr_m mrs1 * 2 ^ (e1 - ex) <= mx).
    { rewrite H1m. rewrite Z.mul_comm. apply Z.mul_div_le. exact Hp1. }
    nia.
  - right. left. split; [reflexivity|]. unfold emax, prec in Hgt. lia.
Qed.

(** A positive [int] below 2^24 as a [float]: a 24-bit mantissa and the
    exponent that makes the value exact. *)
Lemma of_int_positive (z : Z) :
  0 < z < 2 ^ 24 ->
  exists m e,
    of_int z = S754_finite false m e
    /\ Zpos (digits2_pos m) = 24
    /\ e = Zdigits2 z - 24
    /\ -23 <= e <= 0
    /\ Zpos m = z * 2 ^ (- e).
Proof.
  intros Hz. destruct z as [|p|p]; try lia.
  unfold of_int, binary_normalize, binary_round, shl_align. cbn [Zdigits2].
  destruct (digits2_pos_bounds p) as [Hlo Hhi].
  assert (Hd : 1 <= Zpos (digits2_pos p) <= 24).
  { split; [lia|]. apply (Zdigits2_le (Zpos p)); lia. }
  replace (fexp prec emax (Zpos (digits2_pos p) + 0) - 0)
    with (Zpos (digits2_pos p) - 24)
    by (unfold fexp, emin, prec, emax; lia).
  replace (fexp prec emax (Zpos (digits2_pos p) + 0))
    with (Zpos (digits2_pos p) - 24)
    by (unfold fexp, emin, prec, emax; lia).
  destruct (Zpos (digits2_pos p) - 24) as [|k|k] eqn:Hk; [ | lia | ].
  - rewrite binary_round_aux_exact by lia.
    exists p, 0. repeat split; try lia.
  - rewrite binary_round_aux_exact; [| rewrite iter_xO_digits; lia | lia].
    exists (Pos.iter xO p k), (Zneg k). repeat split; try lia.
    + rewrite iter_xO_digits. lia.
    + rewrite iter_xO_value. reflexivity.
Qed.

Lemma tar_eq : targetAspectRatio = S754_finite false 14913081 (-23).
Proof. reflexivity. Qed.

(** The quotient [x / targetAspectRatio] before rounding. *)
Lemma div_tar_core (m : positive) (e : Z) :
  Zpos (digits2_pos m) = 24 -> -23 <= e <= 0 ->
  exists l,
    F32.div (S754_finite false m e) targetAspectRatio
    = binary_round_aux prec emax false (Zpos m * 2 ^ 24 / 14913081) (e - 1) l.
Proof.
  intros Hd He. rewrite tar_eq. unfold F32.div, SFdiv, SFdiv_core_binary.
  cbn [Zdigits2 xorb]. rewrite Hd.
  change (Zpos (digits2_pos 14913081)) with 24.
  replace (Z.min (fexp prec emax (24 + e - (24 + -23))) (e - -23)) with (e - 1)
    by (unfold fexp, emin, prec, emax; lia).
  replace (e - -23 - (e - 1)) with 24 by lia.
  rewrite Z.shiftl_mul_pow2 by lia.
  unfold Z.div.
  destruct (Z.div_eucl (Zpos m * 2 ^ 24) 14913081) as [q r].
  eexists. reflexivity.
Qed.

Lemma to_int_below_one_ulp (m : positive) (e : Z) :
  Zpos m < 2 ^ 24 -> e <= 0 ->
  exists a,
    to_int (S754_finite false m e) = Some a
    /\ 0 <= a /\ a * 2 ^ (- e) <= Zpos m.
Proof.
  intros Hm He. unfold to_int, truncZ. cbn [cond_Zopp].
  assert (Hpow : 0 < 2 ^ (- e)) by (apply Z.pow_pos_nonneg; lia).
  rewrite Z.shiftl_div_pow2 by lia.
  assert (Hlo : 0 <= Zpos m / 2 ^ (- e)) by (apply Z.div_pos; lia).
  assert (Hhi : Zpos m / 2 ^ (- e) * 2 ^ (- e) <= Zpos m).
  { rewrite Z.mul_comm. apply Z.mul_div_le. exact Hpow. }
  assert (Hok : int_ok (Zpos m / 2 ^ (- e)) = true).
  { apply int_ok_spec. unfold INT_MIN, INT_MAX.
    change (2 ^ 24) with 16777216 in Hm. change (2 ^ 31) with 2147483648. nia. }
  rewrite Hok. exists (Zpos m / 2 ^ (- e)). auto.
Qed.

(** [static_cast<int>(width / targetAspectRatio)] is defined, and at most
    a sixteenth above the exact quotient. *)
Lemma div_tar_bound (w : Z) :
  0 < w < 2 ^ 20 ->
  exists a,
    to_int (F32.div (of_int w) targetAspectRatio) = Some a
    /\ 0 <= a
    /\ 16 * (a * 14913081) <= 16 * (w * 2 ^ 23) + 14913081.
Proof.
  intros Hw.
  destruct (of_int_positive w) as (m & e & -> & Hd & He & Her & Hm).
  { change (2 ^ 20) with 1048576 in Hw. change (2 ^ 24) with 16777216. lia. }
  assert (Hdw : Zdigits2 w <= 20) by (apply Zdigits2_le; lia).
  destruct (div_tar_core m e Hd Her) as [l ->].
  set (q := Zpos m * 2 ^ 24 / 14913081).
  assert (Hm24 : Zpos m < 2 ^ 24).
  { destruct (digits2_pos_bounds m) as [_ Hhi]. rewrite Hd in Hhi. exact Hhi. }
  assert (Hq0 : 0 <= q) by (apply Z.div_pos; lia).
  assert (HqT : q * 14913081 <= Zpos m * 2 ^ 24).
  { unfold q. rewrite Z.mul_comm. apply Z.mul_div_le. lia. }
  assert (Hq25 : q < 2 ^ 25).
  { unfold q. apply Z.div_lt_upper_bound; [lia|].
    change (2 ^ 24) with 16777216 in *. change (2 ^ 25) with 33554432. lia. }
  assert (Hdq : Zdigits2 q <= 25) by (apply Zdigits2_le; lia).
  assert (Hdq0 : 0 <= Zdigits2 q) by (destruct q; cbn; lia).
  destruct (binary_round_aux_upper q (e - 1) l Hq0)
    as [Hr|[[_ Hinf]|(m3 & e3 & Hr & Hm3 & He3 & Hval)]].
  - rewrite Hr. exists 0. split; [reflexivity|]. lia.
  - unfold fexp, emin, prec, emax in Hinf. lia.
  - rewrite Hr.
    set (e1 := Z.max (e - 1) (fexp prec emax (Zdigits2 q + (e - 1)))) in *.
    assert (He1 : e - 1 <= e1 <= e) by (unfold e1, fexp, emin, prec, emax; lia).
    destruct (to_int_below_one_ulp m3 e3 Hm3) as (a & Ha & Ha0 & Hae); [lia|].
    exists a. split; [exact Ha|]. split; [exact Ha0|].
    assert (Hp1 : 2 ^ (e1 - (e - 1)) <= 2 ^ 1) by (apply Z.pow_le_mono_r; lia).
    rewrite Z.pow_1_r in Hp1.
    set (P := 2 ^ (1 - e)).
    assert (HP : 32 <= P).
    { change 32 with (2 ^ 5). apply Z.pow_le_mono_r; lia. }
    assert (HaP : a * P <= q + 2).
    { apply Z.le_trans with (Zpos m3 * 2 ^ (e3 - (e - 1))); [|lia].
      unfold P. replace (1 - e) with (- e3 + (e3 - (e - 1))) by lia.
      rewrite Z.pow_add_r by lia.
      assert (0 < 2 ^ (e3 - (e - 1))) by (apply Z.pow_pos_nonneg; lia).
      nia. }
    assert (HmP : Zpos m * 2 = w * P).
    { rewrite Hm. unfold P. replace (1 - e) with (- e + 1) by lia.
      rewrite Z.pow_add_r by lia. rewrite Z.pow_1_r. lia. }
    change (2 ^ 24) with (2 * 2 ^ 23) in HqT.
    assert (Hkey : (a * 14913081 - w * 2 ^ 23) * P <= 2 * 14913081) by nia.
    nia.
Qed.

(** [static_cast<int>(height * targetAspectRatio)] is defined, and at
    most an eighth above the exact product. *)
Lemma mul_tar_bound (h : Z) :
  0 < h < 2 ^ 20 ->
  exists b,
    to_int (F32.mul (of_int h) targetAspectRatio) = Some b
    /\ 0 <= b
    /\ b * 2 ^ 23 <= h * 14913081 + 2 ^ 20.
Proof.
  intros Hh.
  destruct (of_int_positive h) as (m & e & -> & Hd & He & Her & Hm).
  { change (2 ^ 20) with 1048576 in Hh. change (2 ^ 24) with 16777216. lia. }
  assert (Hdh : Zdigits2 h <= 20) by (apply Zdigits2_le; lia).
  rewrite tar_eq. unfold F32.mul, SFmul. cbn [xorb].
  assert (Hm24 : Zpos m < 2 ^ 24).
  { destruct (digits2_pos_bounds m) as [_ Hhi]. rewrite Hd in Hhi. exact Hhi. }
  assert (Hd48 : Zdigits2 (Zpos (m * 14913081)) <= 48).
  { apply Zdigits2_le; [lia | lia |].
    change (2 ^ 24) with 16777216 in Hm24.
    change (2 ^ 48) with (16777216 * 16777216). nia. }
  assert (Hd0 : 0 <= Zdigits2 (Zpos (m * 14913081))) by (cbn; lia).
  destruct (binary_round_aux_upper (Zpos (m * 14913081)) (e + -23) loc_Exact)
    as [Hr|[[_ Hinf]|(m3 & e3 & Hr & Hm3 & He3 & Hval)]]; [lia | | |].
  - rewrite Hr. exists 0. split; [reflexivity|]. lia.
  - unfold fexp, emin, prec, emax in Hinf. lia.
  - rewrite Hr.
    set (e1 := Z.max (e + -23) (fexp prec emax (Zdigits2 (Zpos (m * 14913081)) + (e + -23)))) in *.
    assert (He1 : e + -23 <= e1 <= e + 1) by (unfold e1, fexp, emin, prec, emax; lia).
    destruct (to_int_below_one_ulp m3 e3 Hm3) as (b & Hb & Hb0 & Hbe); [lia|].
    exists b. split; [exact Hb|]. split; [exact Hb0|].
    assert (Hp1 : 2 ^ (e1 - (e + -23)) <= 2 ^ 24) by (apply Z.pow_le_mono_r; lia).
    set (Q := 2 ^ (- e)).
    assert (HQ : 16 <= Q).
    { change 16 with (2 ^ 4). apply Z.pow_le_mono_r; lia. }
    assert (HbQ : b * (2 ^ 23 * Q) <= Zpos (m * 14913081) + 2 ^ 24).
    { apply Z.le_trans with (Zpos m3 * 2 ^ (e3 - (e + -23))); [|lia].
      unfold Q. rewrite <- Z.pow_add_r by lia.
      replace (23 + - e) with (- e3 + (e3 - (e + -23))) by lia.
      rewrite Z.pow_add_r by lia.
      assert (0 < 2 ^ (e3 - (e + -23))) by (apply Z.pow_pos_nonneg; lia).
      nia. }
    rewrite Pos2Z.inj_mul, Hm in HbQ. fold Q in HbQ.
    change (2 ^ 24) with 16777216 in HbQ.
    change (2 ^ 23) with 8388608 in *. change (2 ^ 20) with 1048576 in *.
    assert (Hkey : (b * 8388608 - h * 14913081) * Q <= 16777216) by nia.
    nia.
Qed.

(** X17.  For a grid of up to 2^20 columns and rows, [render] can always
    compute the sub-rectangle (no conversion to [int] is out of range), and
    the sub-rectangle fits in the grid: it is neither wider nor taller, and
    has the grid's full width or full height. *)
Theorem adjusted_fits_grid (width height : Z) :
  0 < width < 2 ^ 20 -> 0 < height < 2 ^ 20 ->
  exists adjustedWidth adjustedHeight,
    adjusted width height = Some (adjustedWidth, adjustedHeight)
    /\ 0 <= adjustedWidth <= width
    /\ 0 <= adjustedHeight <= height
    /\ (adjustedWidth = width \/ adjustedHeight = height).
Proof.
  intros Hw Hh. unfold adjusted.
  destruct (div_tar_bound width Hw) as (a & -> & Ha0 & Ha). simpl.
  destruct (Z.ltb_spec height a) as [Hlt|Hge].
  - destruct (mul_tar_bound height Hh) as (b & -> & Hb0 & Hb). simpl.
    exists b, height. split; [reflexivity|].
    change (2 ^ 23) with 8388608 in *. change (2 ^ 20) with 1048576 in *.
    repeat split; lia.
  - exists width, a. split; [reflexivity|]. repeat split; lia.
Qed.

Lemma adjusted_fits_grid_witness :
  exists adjustedWidth adjustedHeight,
    adjusted 200 250 = Some (adjustedWidth, adjustedHeight)
    /\ 0 <= adjustedWidth <= 200
    /\ 0 <= adjustedHeight <= 250
    /\ (adjustedWidth = 200 \/ adjustedHeight = 250).
Proof.
  apply (adjusted_fits_grid 200 250); vm_compute; split; reflexivity.
Defined.
